(** * Call-gas attribution over EVM struct logs

    A shallow embedding of [eth/tracers/logger/struct_log_call_gas_calc.py]
    and the properties of its single-pass analysis.

    Python integers are unbounded, hence [Z].  A step record ([log]) is a
    decoded JSON object: each of its fields may be missing, and reading a
    missing field raises [KeyError].  A field that is present holds a
    value of the type the trace format gives it: an integer for 'pc',
    'depth', 'gas' and 'gasCost', a string for 'op'.  A present value of
    another JSON type (a null 'gasCost', say, on which the arithmetic of
    lines 85, 91 and 125 raises [TypeError]) is not a [log]: every
    statement about [log]s below is a statement about step records typed
    in this way.  The frame table [call_stack] is a
    Python dict (insertion ordered, one entry per key) and is kept as an
    association list in insertion order; [active_calls] is a Python list,
    where duplicates and positions matter. *)

From Stdlib Require Import ZArith String List Lia Bool.
From stdpp Require Import base tactics option list strings pretty sorting.
Import ListNotations.

Local Open Scope string_scope.
Local Open Scope list_scope.
Local Open Scope Z_scope.
Local Set Warnings "-register-all".

(** ** Exceptions and the error monad *)

(** The Python exceptions the script can raise.  [OutOfFuel] is not a
    Python exception: it marks the exhaustion of the iteration bound of
    [return_loop] below, and is shown never to occur. *)
Inductive exn : Type :=
  | KeyError (k : string)
  | TypeError
  | ValueError
  | OutOfFuel.

Inductive result (A : Type) : Type :=
  | Ok (a : A)
  | Raise (e : exn).
Arguments Ok {A} a.
Arguments Raise {A} e.

#[global] Instance result_ret : MRet result := @Ok.
#[global] Instance result_bind : MBind result := fun A B f m =>
  match m with
  | Ok a => f a
  | Raise e => Raise e
  end.

(** [d[k]] on a dict read as an optional field. *)
Definition getitem {A : Type} (k : string) (field : option A) : result A :=
  match field with
  | Some v => Ok v
  | None => Raise (KeyError k)
  end.

(** ** Step records *)

(** A step record with typed fields: [None] is a missing key, [Some v] a
    key present with an integer (or, for 'op', a string).  Present values
    of other types are outside this type. *)
Record log : Type := Log {
  log_pc : option Z;
  log_depth : option Z;
  log_op : option string;
  log_gas : option Z;
  log_gasCost : option Z
}.

(** ** Frame descriptors and the frame table *)

Abbreviation key := (Z * Z)%type.

(** [call_info] is created with four entries; ['gas_used'], ['return_pc']
    and ['return_depth'] are added when the frame is matched to a return. *)
Record call_info : Type := CallInfo {
  ci_pc : Z;
  ci_depth : Z;
  gas_at_call : Z;
  ci_op : string;
  gas_used : option Z;
  return_pc : option Z;
  return_depth : option Z
}.

Abbreviation dict := (list (key * call_info)).

Fixpoint dict_get (k : key) (d : dict) : option call_info :=
  match d with
  | [] => None
  | (k', v) :: d' => if decide (k = k') then Some v else dict_get k d'
  end.

(** [d[k] = v]: an existing key keeps its position, a new one goes last. *)
Fixpoint dict_set (k : key) (v : call_info) (d : dict) : dict :=
  match d with
  | [] => [(k, v)]
  | (k', v') :: d' =>
      if decide (k = k') then (k', v) :: d' else (k', v') :: dict_set k v d'
  end.

(** [d.pop(k)]: the value and the dict without the key; [KeyError] if absent. *)
Fixpoint dict_pop (k : key) (d : dict) : result (call_info * dict) :=
  match d with
  | [] => Raise (KeyError "call_key")
  | (k', v) :: d' =>
      if decide (k = k') then Ok (v, d')
      else '(r, d'') ← dict_pop k d'; Ok (r, (k', v) :: d'')
  end.

(** [l.remove(x)]: drops the first occurrence; [ValueError] if there is none. *)
Fixpoint list_remove (x : key) (l : list key) : result (list key) :=
  match l with
  | [] => Raise ValueError
  | y :: l' =>
      if decide (x = y) then Ok l' else l'' ← list_remove x l'; Ok (y :: l'')
  end.

(** ** The analysis: [parse_struct_logs] *)

Definition stack_increasers : list string :=
  ["CALL"; "CALLCODE"; "DELEGATECALL"; "STATICCALL"; "CREATE"; "CREATE2"].

Definition in_stack_increasers (o : string) : bool :=
  bool_decide (o ∈ stack_increasers).

(** The local variables of [parse_struct_logs]. *)
Record state : Type := State {
  call_stack : dict;
  active_calls : list key;
  gas_sum : Z;
  gas_start : Z;
  gas_end : Z;
  monitor : bool
}.

Definition init : state :=
  {| call_stack := []; active_calls := []; gas_sum := 0;
     gas_start := 0; gas_end := 0; monitor := false |}.

(** [log['pc'] == target and log['depth'] == depth]; [and] reads
    ['depth'] only when the first comparison holds. *)
Definition at_marker (target depth : Z) (l : log) : result bool :=
  p ← getitem "pc" (log_pc l);
  if p =? target then d ← getitem "depth" (log_depth l); Ok (d =? depth)
  else Ok false.

(** The frame stamped with its return (lines 91-94). *)
Definition finalize (ci : call_info) (g current_pc current_depth : Z) : call_info :=
  {| ci_pc := ci_pc ci; ci_depth := ci_depth ci;
     gas_at_call := gas_at_call ci; ci_op := ci_op ci;
     gas_used := Some (gas_at_call ci - g);
     return_pc := Some current_pc;
     return_depth := Some current_depth |}.

(** [for call_key in active_calls: ...] (lines 87-97).  The list is
    mutated while it is iterated: the iterator is the index [i] into the
    current list and stops once [i] is past its end, so the element that
    slides into a removed slot is skipped.  [fuel] bounds the number of
    iterations; [length active_calls] is always enough. *)
Fixpoint return_loop (fuel : nat) (i : nat) (l : log)
    (current_pc current_depth : Z) (cs : dict) (active : list key)
    : result (dict * list key) :=
  match active !! i with
  | None => Ok (cs, active)
  | Some call_key =>
      match fuel with
      | O => Raise OutOfFuel
      | S fuel' =>
          let '(call_pc, call_depth) := call_key in
          if current_pc =? call_pc + 1 then
            '(ci, cs1) ← dict_pop call_key cs;
            g ← getitem "gas" (log_gas l);
            let cs2 := dict_set call_key (finalize ci g current_pc current_depth) cs1 in
            active' ← list_remove call_key active;
            return_loop fuel' (S i) l current_pc current_depth cs2 active'
          else return_loop fuel' (S i) l current_pc current_depth cs active
      end
  end.

(** How one iteration of the main loop ends: [Next] for falling through
    or [continue], [Break] for [break]. *)
Inductive flow : Type := Next | Break.

(** The assignments of the loop body, as state updates. *)
Definition open_window (st : state) (g : Z) : state :=
  {| call_stack := call_stack st; active_calls := active_calls st;
     gas_sum := gas_sum st; gas_start := g; gas_end := gas_end st;
     monitor := true |}.

Definition close_window (st : state) (g : Z) : state :=
  {| call_stack := call_stack st; active_calls := active_calls st;
     gas_sum := gas_sum st; gas_start := gas_start st; gas_end := g;
     monitor := false |}.

Definition new_call (current_pc current_depth g : Z) (o : string) : call_info :=
  {| ci_pc := current_pc; ci_depth := current_depth; gas_at_call := g;
     ci_op := o; gas_used := None; return_pc := None; return_depth := None |}.

Definition open_frame (st : state) (current_pc current_depth g : Z) (o : string)
    : state :=
  {| call_stack := dict_set (current_pc, current_depth)
                     (new_call current_pc current_depth g o) (call_stack st);
     active_calls := active_calls st ++ [(current_pc, current_depth)];
     gas_sum := gas_sum st; gas_start := gas_start st;
     gas_end := gas_end st; monitor := monitor st |}.

Definition after_opcode (st : state) (c : Z) (cs : dict) (active : list key)
    : state :=
  {| call_stack := cs; active_calls := active;
     gas_sum := gas_sum st + c; gas_start := gas_start st;
     gas_end := gas_end st; monitor := monitor st |}.

(** One iteration of [for log in struct_logs] (lines 54-97).  The
    [print] calls are kept only as the field reads of their f-strings. *)
Definition loop_body (start_pc depth : Z) (st : state) (l : log)
    : result (flow * state) :=
  is_start ← at_marker start_pc depth l;
  if (is_start : bool) then
    _ ← getitem "op" (log_op l);
    g ← getitem "gas" (log_gas l);
    Ok (Next, open_window st g)
  else
    is_end ← at_marker (start_pc + 1) depth l;
    if (is_end : bool) then
      _ ← getitem "op" (log_op l);
      g ← getitem "gas" (log_gas l);
      Ok (Break, close_window st g)
    else if monitor st then
      current_depth ← getitem "depth" (log_depth l);
      current_pc ← getitem "pc" (log_pc l);
      if negb (current_depth =? depth + 1) then Ok (Next, st)
      else
        o ← getitem "op" (log_op l);
        if in_stack_increasers o then
          g ← getitem "gas" (log_gas l);
          Ok (Next, open_frame st current_pc current_depth g o)
        else
          c ← getitem "gasCost" (log_gasCost l);
          '(cs, active) ← return_loop (length (active_calls st)) 0 l
                            current_pc current_depth (call_stack st) (active_calls st);
          Ok (Next, after_opcode st c cs active)
    else Ok (Next, st).

(** [for log in struct_logs]: the state when the loop is left, and
    whether it was left by [break] or by exhausting the sequence. *)
Fixpoint for_logs (start_pc depth : Z) (st : state) (struct_logs : list log)
    : result (flow * state) :=
  match struct_logs with
  | [] => Ok (Next, st)
  | l :: rest =>
      '(f, st') ← loop_body start_pc depth st l;
      match f with
      | Next => for_logs start_pc depth st' rest
      | Break => Ok (Break, st')
      end
  end.

(** Lines 100-102: add the gas of the frames that carry ['gas_used']. *)
Definition add_completed (gs : Z) (cs : dict) : Z :=
  fold_left (fun acc (e : key * call_info) =>
               match gas_used (snd e) with
               | Some g => acc + g
               | None => acc
               end) cs gs.

(** The returned dict. *)
Record results : Type := Results {
  res_gas_sum : Z;
  res_gas_start : Z;
  res_gas_end : Z;
  res_call_stack : dict
}.

(** [parse_struct_logs], as a function of the step sequence that line 50
    obtains from the trace source ([get_struct_logs_from_file], below). *)
Definition parse_struct_logs (struct_logs : list log) (start_pc depth : Z)
    : result results :=
  '(_, st) ← for_logs start_pc depth init struct_logs;
  Ok {| res_gas_sum := add_completed (gas_sum st) (call_stack st);
        res_gas_start := gas_start st;
        res_gas_end := gas_end st;
        res_call_stack := call_stack st |}.

(** ** The report: [print_results] *)

Definition gas_total (r : results) : Z := res_gas_start r - res_gas_end r.

Definition non_execution_gas (r : results) : Z := gas_total r - res_gas_sum r.

(** One entry of the "Call stack details" listing.  A frame that carries
    ['gas_used'] is read for ['return_pc'] and ['return_depth'] too. *)
Definition print_call (e : key * call_info) : result (list string) :=
  let ci := snd e in
  let head := "  Call at PC " +:+ pretty (ci_pc ci) +:+ ", depth "
                +:+ pretty (ci_depth ci) +:+ ": " +:+ ci_op ci in
  match gas_used ci with
  | Some g =>
      rp ← getitem "return_pc" (return_pc ci);
      rd ← getitem "return_depth" (return_depth ci);
      Ok [ head; "    Gas used: " +:+ pretty g;
           "    Returned at PC " +:+ pretty rp +:+ ", depth " +:+ pretty rd ]
  | None => Ok [ head; "    Still active" ]
  end.

Fixpoint print_calls (cs : dict) : result (list string) :=
  match cs with
  | [] => Ok []
  | e :: cs' =>
      ls ← print_call e;
      ls' ← print_calls cs';
      Ok (ls ++ ls')
  end.

(** The lines [print_results] writes to standard output. *)
Definition print_results (r : results) : result (list string) :=
  ls ← print_calls (res_call_stack r);
  Ok ([ "> Execution gas used: " +:+ pretty (res_gas_sum r);
        "> Total gas used: " +:+ pretty (gas_total r) +:+ " ("
          +:+ pretty (res_gas_start r) +:+ " - " +:+ pretty (res_gas_end r) +:+ ")";
        "> Non Execution gas used: " +:+ pretty (non_execution_gas r);
        "Call stack details:" ] ++ ls).

(** ** The trace source: [get_struct_logs_from_file] *)

(** A decoded JSON document, as [json.load] returns it.  Non-integral
    numbers behave like [JInt] in everything below (neither iterable nor
    subscriptable) and are left out. *)
Inductive json : Type :=
  | JNull
  | JBool (b : bool)
  | JInt (n : Z)
  | JStr (s : string)
  | JList (l : list json)
  | JDict (d : list (string * json)).

(** The value under a key of a decoded object, which has one entry per key. *)
Fixpoint json_lookup (k : string) (d : list (string * json)) : option json :=
  match d with
  | [] => None
  | (k', v) :: d' => if String.eqb k k' then Some v else json_lookup k d'
  end.

(** Python's substring test on [str]. *)
Fixpoint contains (needle s : string) : bool :=
  String.prefix needle s ||
  match s with
  | EmptyString => false
  | String _ s' => contains needle s'
  end.

(** [k in c] for a string [k]: key membership on a dict, element
    membership on a list, substring test on a string, and [TypeError]
    on [None], booleans and numbers. *)
Definition py_in (k : string) (c : json) : result bool :=
  match c with
  | JDict d => Ok (bool_decide (is_Some (json_lookup k d)))
  | JList l => Ok (existsb (fun x => match x with
                                      | JStr s => String.eqb s k
                                      | _ => false
                                      end) l)
  | JStr s => Ok (contains k s)
  | JNull | JBool _ | JInt _ => Raise TypeError
  end.

(** [c[k]] for a string [k]: only a dict can be indexed by a string. *)
Definition py_getitem (c : json) (k : string) : result json :=
  match c with
  | JDict d => getitem k (json_lookup k d)
  | _ => Raise TypeError
  end.

Definition not_found : string :=
  "structLogs not found in either data['result']['structLogs'] or data['structLogs']".

(** [get_struct_logs_from_file], from the decoded document on (lines 19-28):
    reading and decoding the file is the caller's. *)
Definition get_struct_logs_from_file (data : json) : result json :=
  has_result ← py_in "result" data;
  nested ← (if (has_result : bool)
            then r ← py_getitem data "result"; py_in "structLogs" r
            else Ok false);
  if (nested : bool) then
    r ← py_getitem data "result"; py_getitem r "structLogs"
  else
    direct ← py_in "structLogs" data;
    if (direct : bool) then py_getitem data "structLogs"
    else Raise (KeyError not_found).

(** The two places of the step sequence in a document, read as the
    Python expressions [data['result']['structLogs']] and
    [data['structLogs']]; a field is present when its expression has a
    value. *)
Definition nested_field (data : json) : result json :=
  r ← py_getitem data "result"; py_getitem r "structLogs".

Definition direct_field (data : json) : result json :=
  py_getitem data "structLogs".

Definition present (field : result json) : Prop := ∃ v, field = Ok v.

(** The document is an object, and its ["result"] member, if it has one,
    is an object too. *)
Definition object_shaped (data : json) : Prop :=
  match data with
  | JDict d =>
      match json_lookup "result" d with
      | Some (JDict _) | None => True
      | Some _ => False
      end
  | _ => False
  end.

(** A response whose ["result"] is [null], next to a top-level step
    sequence. *)
Definition doc_null_result : json :=
  JDict [("result", JNull); ("structLogs", JList [])].

Definition doc_nested : json :=
  JDict [("id", JInt 1);
         ("result", JDict [("gas", JInt 21000); ("structLogs", JList [JInt 1])])].

(** ** Traces of complete step records

    The step record of the data model carries all five fields.  Claims
    about "every trace" range over sequences of such records, handed to
    the analysis as the decoded objects [log_of_step] builds. *)

Record step : Type := Step {
  s_pc : Z;
  s_depth : Z;
  s_op : string;
  s_gas : Z;
  s_gasCost : Z
}.

Definition log_of_step (s : step) : log :=
  {| log_pc := Some (s_pc s); log_depth := Some (s_depth s);
     log_op := Some (s_op s); log_gas := Some (s_gas s);
     log_gasCost := Some (s_gasCost s) |}.

Definition encode (t : list step) : list log := log_of_step <$> t.

Section Window.
Variables start_pc depth : Z.

(** The start marker [(start_pc, depth)] and the end marker
    [(start_pc + 1, depth)]. *)
Definition is_start (s : step) : bool :=
  (s_pc s =? start_pc) && (s_depth s =? depth).

Definition is_end (s : step) : bool :=
  (s_pc s =? start_pc + 1) && (s_depth s =? depth).

Definition is_call (s : step) : bool := in_stack_increasers (s_op s).

(** The steps in front of the first end marker. *)
Fixpoint before_end (t : list step) : list step :=
  match t with
  | [] => []
  | s :: t' => if is_end s then [] else s :: before_end t'
  end.

(** The steps behind the first start marker. *)
Fixpoint after_start (t : list step) : list step :=
  match t with
  | [] => []
  | s :: t' => if is_start s then t' else after_start t'
  end.

(** The monitoring window: what lies between the first start marker
    and the first end marker; empty when an end marker comes first. *)
Definition window (t : list step) : list step :=
  after_start (before_end t).

(** The steps of the window at the child depth [depth + 1]. *)
Definition child_steps (t : list step) : list step :=
  List.filter (fun s => s_depth s =? depth + 1) (window t).

(** The start markers the scan reaches. *)
Definition starts_seen (t : list step) : list step :=
  List.filter is_start (before_end t).
End Window.

(** Sum of the gas costs of the steps that are not call-family steps. *)
Fixpoint opcode_gas (F : list step) : Z :=
  match F with
  | [] => 0
  | s :: F' => (if is_call s then 0 else s_gasCost s) + opcode_gas F'
  end.

(** [r] is a return point for the call site [p]: a step that is not a
    call-family step, at the program counter after [p]. *)
Definition return_point (p : Z) (r : step) : bool :=
  negb (is_call r) && (s_pc r =? p + 1).

Definition returns_to (c : step) : step → bool := return_point (s_pc c).

(** Gas used by the frames opened and closed within [F]: each
    call-family step opens a frame, which the first later return point
    closes; a frame that is never closed counts for nothing. *)
Fixpoint completed_gas (F : list step) : Z :=
  match F with
  | [] => 0
  | c :: F' =>
      (if is_call c then
         match List.find (returns_to c) F' with
         | Some r => s_gas c - s_gas r
         | None => 0
         end
       else 0) + completed_gas F'
  end.

(** The program counters of the call-family steps of [F]. *)
Definition call_sites (F : list step) : list Z :=
  s_pc <$> List.filter is_call F.

(** ** Accounting of the frame table *)

(** What a frame adds to the gas sum after the scan. *)
Definition frame_gas (ci : call_info) : Z := default 0 (gas_used ci).

Definition completed (cs : dict) : Z :=
  foldr (λ e acc, frame_gas e.2 + acc) 0 cs.

(** What the active frame [k] will add when the steps [F] are scanned:
    the gas between its call and its first return point in [F]. *)
Definition pending (cs : dict) (F : list step) (k : key) : Z :=
  match dict_get k cs, List.find (return_point k.1) F with
  | Some ci, Some r => gas_at_call ci - s_gas r
  | _, _ => 0
  end.

Definition pending_sum (cs : dict) (F : list step) (active : list key) : Z :=
  foldr (λ k acc, pending cs F k + acc) 0 active.

(** The child-depth steps still to be accounted for when the scan is
    about to read [t] with the window open ([mon]) or not yet open. *)
Definition to_scan (start_pc depth : Z) (mon : bool) (t : list step) : list step :=
  List.filter (λ s, s_depth s =? depth + 1)
    (if mon then before_end start_pc depth t
     else after_start start_pc depth (before_end start_pc depth t)).

(** What the result's gas sum will be when the scan, in state [st], still
    has the child-depth steps [F] to read. *)
Definition owed (st : state) (F : list step) : Z :=
  gas_sum st + completed (call_stack st)
  + opcode_gas F + pending_sum (call_stack st) F (active_calls st)
  + completed_gas F.

(** ** Invariants of the frame table *)

Definition keys (d : dict) : list key := d.*1.

(** A frame is finalized when it carries ['gas_used']. *)
Definition finalized (k : key) (d : dict) : Prop :=
  ∃ ci, dict_get k d = Some ci ∧ is_Some (gas_used ci).

(** One descriptor per key, every key at the child depth, and every
    active key present in the table. *)
Definition table_ok (depth : Z) (cs : dict) (active : list key) : Prop :=
  NoDup (keys cs)
  ∧ (∀ k, k ∈ keys cs → k.2 = depth + 1)
  ∧ (∀ k, k ∈ active → k ∈ keys cs).

Definition state_ok (depth : Z) (st : state) : Prop :=
  table_ok depth (call_stack st) (active_calls st).

(** The state of a scan in which no call site is passed twice: the active
    keys are distinct and not finalized, and the call sites still to come
    in [F] are distinct and have no frame yet. *)
Definition fresh_sites (depth : Z) (st : state) (F : list step) : Prop :=
  state_ok depth st
  ∧ NoDup (active_calls st)
  ∧ (∀ k, k ∈ active_calls st → ¬ finalized k (call_stack st))
  ∧ NoDup (call_sites F)
  ∧ (∀ p, p ∈ call_sites F → (p, depth + 1) ∉ keys (call_stack st)).

(** ** The cases of one iteration *)

(** The ways an iteration can end without raising. *)
Inductive body_case (start_pc depth : Z) (st : state) (l : log)
    : flow → state → Prop :=
  | at_start g :
      log_pc l = Some start_pc → log_depth l = Some depth →
      log_gas l = Some g →
      body_case start_pc depth st l Next (open_window st g)
  | at_end g :
      log_pc l = Some (start_pc + 1) → log_depth l = Some depth →
      log_gas l = Some g →
      body_case start_pc depth st l Break (close_window st g)
  | skipped :
      (monitor st = false ∨ log_depth l ≠ Some (depth + 1)) →
      body_case start_pc depth st l Next st
  | at_call p o g :
      monitor st = true →
      log_pc l = Some p → log_depth l = Some (depth + 1) →
      log_op l = Some o → in_stack_increasers o = true →
      log_gas l = Some g →
      body_case start_pc depth st l Next (open_frame st p (depth + 1) g o)
  | at_opcode p o c cs active :
      monitor st = true →
      log_pc l = Some p → log_depth l = Some (depth + 1) →
      log_op l = Some o → in_stack_increasers o = false →
      log_gasCost l = Some c →
      return_loop (length (active_calls st)) 0 l p (depth + 1)
        (call_stack st) (active_calls st) = Ok (cs, active) →
      body_case start_pc depth st l Next (after_opcode st c cs active).

(** The window is open once the scan has read [pre]: it has not left the
    loop, and [monitor] is set. *)
Definition window_open (start_pc depth : Z) (pre : list step) : Prop :=
  ∃ st, for_logs start_pc depth init (encode pre) = Ok (Next, st)
        ∧ monitor st = true.

(** ** Sample traces *)

Definition trace_C2 : list log :=
  [ Log (Some 10) (Some 1) (Some "JUMPDEST") (Some 500) None;
    Log (Some 20) (Some 2) (Some "ADD") (Some 490) (Some 3);
    Log (Some 21) (Some 2) (Some "CALL") (Some 487) (Some 0);
    Log (Some 22) (Some 2) (Some "STOP") (Some 450) (Some 0);
    Log (Some 11) (Some 1) (Some "JUMPDEST") (Some 440) None ].


Definition frame_C2 : call_info :=
  {| ci_pc := 21; ci_depth := 2; gas_at_call := 487; ci_op := "CALL";
     gas_used := Some 37; return_pc := Some 22; return_depth := Some 2 |}.

(** An end marker with no start marker in front of it. *)
Definition trace_end_only : list step :=
  [ Step 20 2 "ADD" 490 3; Step 11 1 "JUMPDEST" 440 0 ].

(** The start marker is passed twice before the end marker, and once more
    behind it. *)
Definition trace_restart : list step :=
  [ Step 10 1 "JUMPDEST" 500 1; Step 10 1 "JUMPDEST" 480 1;
    Step 11 1 "JUMPDEST" 440 1; Step 10 1 "JUMPDEST" 300 1 ].

(** A window that is opened and never closed. *)
Definition trace_open_pre : list step :=
  [ Step 10 1 "JUMPDEST" 500 1; Step 21 2 "CALL" 487 0 ].

Definition trace_open_post : list step :=
  [ Step 22 2 "STOP" 450 0; Step 23 2 "ADD" 447 3 ].

(** The same call site is passed twice while its first frame is active. *)
Definition trace_reopen : list step :=
  [ Step 10 1 "JUMPDEST" 500 1; Step 21 2 "CALL" 487 0; Step 21 2 "CALL" 480 0 ].


(** One call site passed twice: its first frame returns, the second is
    left open. *)
Definition trace_loop : list step :=
  [ Step 10 1 "JUMPDEST" 500 1; Step 21 2 "CALL" 487 0; Step 22 2 "STOP" 450 0;
    Step 21 2 "CALL" 400 0; Step 11 1 "JUMPDEST" 390 1 ].

(** The five steps of [trace_C2], complete. *)
Definition trace_call_return : list step :=
  [ Step 10 1 "JUMPDEST" 500 1; Step 20 2 "ADD" 490 3; Step 21 2 "CALL" 487 0;
    Step 22 2 "STOP" 450 0; Step 11 1 "JUMPDEST" 440 1 ].


(** ** Further definitions *)

(** The steps the scan can act on: the markers and the child depth. *)
Definition in_view_of (start_pc depth : Z) (s : step) : bool :=
  is_start start_pc depth s || is_end start_pc depth s || (s_depth s =? depth + 1).

(** The keys of a step record. *)
Definition field_names : list string := ["pc"; "depth"; "op"; "gas"; "gasCost"].

(** [m] raises nothing but exceptions that satisfy [P]. *)
Definition raises_only {A : Type} (P : exn → Prop) (m : result A) : Prop :=
  ∀ e, m = Raise e → P e.

(** The exception for a missing field of a step record. *)
Definition missing_field (e : exn) : Prop :=
  ∃ k, e = KeyError k ∧ k ∈ field_names.

(** A complete step record with its ['gasCost'] entry taken away. *)
Definition without_gasCost (s : step) : log :=
  {| log_pc := Some (s_pc s); log_depth := Some (s_depth s);
     log_op := Some (s_op s); log_gas := Some (s_gas s);
     log_gasCost := None |}.

(** The steps whose cost can be charged: at the child depth, and not a
    call-family step. *)
Definition charged (depth : Z) (s : step) : bool :=
  (s_depth s =? depth + 1) && negb (is_call s).

(** The trace with ['gasCost'] left only on the steps that can be charged. *)
Definition encode_sparse (depth : Z) (t : list step) : list log :=
  (λ s, if charged depth s then log_of_step s else without_gasCost s) <$> t.

(** A frame descriptor as the analysis builds it: filed under its own
    program counter and depth, at the child depth, opened by a
    call-family opcode, and stamped with the return point, one past its
    program counter, exactly when it carries ['gas_used']. *)
Definition frame_ok (depth : Z) (e : key * call_info) : Prop :=
  e.1 = (ci_pc e.2, ci_depth e.2)
  ∧ ci_depth e.2 = depth + 1
  ∧ in_stack_increasers (ci_op e.2) = true
  ∧ match gas_used e.2 with
    | Some _ =>
        return_pc e.2 = Some (ci_pc e.2 + 1)
        ∧ return_depth e.2 = Some (depth + 1)
    | None => return_pc e.2 = None ∧ return_depth e.2 = None
    end.

(** The descriptor [ci] of the active key [k] once the steps [F] have
    been scanned: stamped by its first return point in [F], or left as
    it is when [F] has none. *)
Definition settle (depth : Z) (F : list step) (k : key) (ci : call_info) : call_info :=
  match List.find (return_point k.1) F with
  | Some r => finalize ci (s_gas r) (s_pc r) (depth + 1)
  | None => ci
  end.

(** The frame of the call-family step [c] that has the steps [F]
    between it and the end of the window. *)
Definition expected_frame (depth : Z) (c : step) (F : list step) : call_info :=
  settle depth F (s_pc c, depth + 1)
    (new_call (s_pc c) (depth + 1) (s_gas c) (s_op c)).

(** One call that returns and one that does not. *)
Definition trace_two_calls : list step :=
  [ Step 10 1 "JUMPDEST" 500 1; Step 21 2 "CALL" 487 0; Step 30 3 "ADD" 480 3;
    Step 22 2 "POP" 450 2; Step 31 2 "STATICCALL" 440 0; Step 11 1 "JUMPDEST" 400 1 ].

(** ** [count_transactions.py]: the last transaction *)

Section LastTransaction.
(** The entries of [transaction_details] are pairs of a block number and
    a transaction hash.  The class of the records they are read from is
    generated code that is not at hand: the hash is taken as any type
    with its Python order [hash_leb] ([str] and [bytes] both compare
    lexicographically). *)
Context {hash : Type} (hash_leb : hash → hash → bool).

(** The order of the sort keys [(x[0], x[1])]: Python compares tuples
    lexicographically. *)
Definition key_le (x y : Z * hash) : Prop :=
  x.1 < y.1 ∨ (x.1 = y.1 ∧ hash_leb x.2 y.2 = true).

#[global] Instance key_le_dec (x y : Z * hash) : Decision (key_le x y).
Proof. unfold key_le. apply _. Defined.

(** [get_last_transaction_hash]; [None] is Python's [None].  The sort key
    is the whole entry, so a sorted arrangement of the list is unique and
    [sorted] returns the list [merge_sort] returns. *)
Definition get_last_transaction_hash (transaction_details : list (Z * hash))
    : option hash :=
  match transaction_details with
  | [] => None
  | _ :: _ => snd <$> last (merge_sort key_le transaction_details)
  end.
End LastTransaction.

Definition details_sample : list (Z * Z) :=
  [ (1200, 77); (1300, 5); (1100, 99); (1300, 42); (1200, 78) ].

(** Two states of the scan that differ at most in [gas_start]. *)
Definition same_but_gas_start (st1 st2 : state) : Prop :=
  call_stack st1 = call_stack st2
  ∧ active_calls st1 = active_calls st2
  ∧ gas_sum st1 = gas_sum st2
  ∧ gas_end st1 = gas_end st2
  ∧ monitor st1 = monitor st2.

(** The call site (21, 2) passed three times in a row. *)
Definition trace_three_calls : list step :=
  [ Step 10 1 "JUMPDEST" 500 1; Step 21 2 "CALL" 487 0; Step 21 2 "CALL" 480 0;
    Step 21 2 "CALL" 470 0 ].


(** A loop that passes the call site (21, 2) twice; each call returns at
    program counter 22 before the window closes. *)
Definition trace_loop_twice : list step :=
  [ Step 10 1 "JUMPDEST" 500 1; Step 21 2 "CALL" 487 0; Step 22 2 "STOP" 450 0;
    Step 21 2 "CALL" 400 0; Step 22 2 "STOP" 366 0; Step 11 1 "JUMPDEST" 360 1 ].

(** A step at (11, 1) in front of the step at (10, 1). *)
Definition trace_end_first : list step :=
  [ Step 11 1 "JUMPDEST" 440 1; Step 10 1 "JUMPDEST" 500 1; Step 20 2 "ADD" 490 3 ].

(** * Properties *)

(** ** The error monad *)

Lemma bind_Ok {A B} (m : result A) (f : A → result B) (b : B) :
  m ≫= f = Ok b ↔ ∃ a, m = Ok a ∧ f a = Ok b.
Proof.
  destruct m as [a|e]; simpl.
  - split; [eauto | intros (a' & [= <-] & H); exact H].
  - split; [discriminate | intros (a' & [=] & _)].
Qed.

Lemma getitem_Ok {A} k (o : option A) v : getitem k o = Ok v ↔ o = Some v.
Proof. destruct o; simpl; split; congruence. Qed.

(** Decompose a successful monadic computation in hypothesis [H]. *)
Ltac inv_ok H :=
  repeat match type of H with
  | Ok _ = Ok _ => apply (f_equal (λ r, match r with Ok x => Some x | Raise _ => None end)) in H;
                   simpl in H; simplify_eq
  | Raise _ = Ok _ => discriminate H
  | (_ ≫= _) = Ok _ =>
      let a := fresh "a" in let Ha := fresh "Ha" in
      apply bind_Ok in H as (a & Ha & H); try apply getitem_Ok in Ha
  | getitem _ _ = Ok _ => apply getitem_Ok in H
  | (let '(_, _) := ?p in _) = Ok _ => is_var p; destruct p
  end.

(** ** The frame table *)

Lemma dict_get_Some_keys k d ci : dict_get k d = Some ci → k ∈ keys d.
Proof.
  induction d as [|[k' v] d IH]; simpl; [discriminate|].
  case_decide; subst; intros; [left | right; auto].
Qed.

Lemma dict_get_None_keys k d : dict_get k d = None ↔ k ∉ keys d.
Proof.
  induction d as [|[k' v] d IH]; simpl.
  - split; [intros _; apply not_elem_of_nil | done].
  - rewrite not_elem_of_cons. case_decide; subst; [split; [done | tauto] | tauto].
Qed.

Lemma dict_get_set k k' v d :
  dict_get k' (dict_set k v d) = if decide (k' = k) then Some v else dict_get k' d.
Proof.
  induction d as [|[k0 v0] d IH]; simpl.
  - repeat case_decide; congruence.
  - destruct (decide (k = k0)); simpl; repeat case_decide; congruence.
Qed.

Lemma keys_dict_set_in k v d : k ∈ keys d → keys (dict_set k v d) = keys d.
Proof.
  induction d as [|[k0 v0] d IH]; simpl; [by intros ?%elem_of_nil|].
  intros Hin. case_decide; simpl; [done|].
  f_equal. apply IH. apply elem_of_cons in Hin as [?|?]; [congruence | done].
Qed.

Lemma keys_dict_set_notin k v d : k ∉ keys d → keys (dict_set k v d) = keys d ++ [k].
Proof.
  induction d as [|[k0 v0] d IH]; simpl; [done|].
  intros [? ?]%not_elem_of_cons. case_decide; [congruence|].
  simpl. f_equal. auto.
Qed.

Lemma keys_dict_set_perm k v d :
  keys (dict_set k v d) ≡ₚ if decide (k ∈ keys d) then keys d else k :: keys d.
Proof.
  case_decide.
  - by rewrite keys_dict_set_in.
  - rewrite keys_dict_set_notin by done. by rewrite Permutation_app_comm.
Qed.

Lemma dict_pop_Ok k d ci d' :
  dict_pop k d = Ok (ci, d') →
  dict_get k d = Some ci
  ∧ keys d ≡ₚ k :: keys d'
  ∧ (∀ k', k' ≠ k → dict_get k' d' = dict_get k' d).
Proof.
  revert ci d'. induction d as [|[k0 v0] d IH]; simpl; intros ci d' H; [discriminate|].
  case_decide; subst.
  - injection H as <- <-. split_and!; [done | done |].
    intros k' ?. by rewrite decide_False.
  - inv_ok H.
    destruct (IH _ _ Ha) as (Hg & Hp & Ho). split_and!; [done | |].
    + simpl. rewrite Hp. apply Permutation_swap.
    + intros k' ?. simpl. case_decide; auto.
Qed.

Lemma dict_pop_total k d : k ∈ keys d → ∃ ci d', dict_pop k d = Ok (ci, d').
Proof.
  induction d as [|[k0 v0] d IH]; simpl; [by intros ?%elem_of_nil|].
  intros Hin. case_decide; [eauto|].
  apply elem_of_cons in Hin as [?|Hin]; [congruence|].
  destruct (IH Hin) as (ci & d' & ->). simpl. eauto.
Qed.

Lemma list_remove_Ok x l l' :
  list_remove x l = Ok l' → l ≡ₚ x :: l'.
Proof.
  revert l'. induction l as [|y l IH]; simpl; intros l' H; [discriminate|].
  case_decide; subst.
  - by injection H as <-.
  - inv_ok H. rewrite (IH _ Ha). apply Permutation_swap.
Qed.

Lemma list_remove_total x l : x ∈ l → ∃ l', list_remove x l = Ok l'.
Proof.
  induction l as [|y l IH]; simpl; [by intros ?%elem_of_nil|].
  intros Hin. case_decide; [eauto|].
  apply elem_of_cons in Hin as [?|Hin]; [congruence|].
  destruct (IH Hin) as (l' & ->). simpl. eauto.
Qed.

(** ** Matching returns: [return_loop] *)

Lemma table_ok_finalize depth cs active k ci cs1 active' fin :
  table_ok depth cs active →
  dict_pop k cs = Ok (ci, cs1) →
  list_remove k active = Ok active' →
  table_ok depth (dict_set k fin cs1) active'.
Proof.
  intros (Hnd & Hdepth & Hact) Hpop Hrem.
  apply dict_pop_Ok in Hpop as (_ & Hperm & _).
  apply list_remove_Ok in Hrem.
  assert (Hk : k ∉ keys cs1).
  { rewrite Hperm in Hnd. by apply NoDup_cons in Hnd as [? _]. }
  assert (Hkeys : keys (dict_set k fin cs1) ≡ₚ keys cs).
  { rewrite keys_dict_set_notin by done. rewrite Hperm. apply Permutation_app_comm. }
  split_and!.
  - by rewrite Hkeys.
  - intros k'. rewrite Hkeys. apply Hdepth.
  - intros k' Hin. rewrite Hkeys. apply Hact. rewrite Hrem. by right.
Qed.

Lemma dict_finalize_other k k' ci cs cs1 fin :
  dict_pop k cs = Ok (ci, cs1) → k' ≠ k →
  dict_get k' (dict_set k fin cs1) = dict_get k' cs.
Proof.
  intros Hpop Hne. apply dict_pop_Ok in Hpop as (_ & _ & Ho).
  rewrite dict_get_set, decide_False by done. by apply Ho.
Qed.

Lemma list_remove_other (k k' : key) active active' :
  list_remove k active = Ok active' → k' ≠ k → k' ∈ active' ↔ k' ∈ active.
Proof.
  intros Hrem%list_remove_Ok Hne. rewrite Hrem, elem_of_cons. tauto.
Qed.

(** What [return_loop] leaves alone: the invariant of the table, and
    every frame whose call site is not right in front of the current
    program counter. *)
Lemma return_loop_spec depth fuel l current_pc current_depth :
  ∀ i cs active cs' active',
    return_loop fuel i l current_pc current_depth cs active = Ok (cs', active') →
    (table_ok depth cs active → table_ok depth cs' active')
    ∧ (∀ k, current_pc ≠ k.1 + 1 →
         dict_get k cs' = dict_get k cs ∧ (k ∈ active' ↔ k ∈ active)).
Proof.
  induction fuel as [|fuel IH]; intros i cs active cs' active' H; simpl in H.
  - destruct (active !! i); [discriminate|]. by injection H as <- <-.
  - destruct (active !! i) as [[call_pc call_depth]|] eqn:Hi;
      [|by injection H as <- <-].
    destruct (current_pc =? call_pc + 1) eqn:Hpc.
    + inv_ok H.
      apply IH in H as [Hok Hother]. split.
      * intros Htab. apply Hok. eapply table_ok_finalize; eauto.
      * intros k Hk. destruct (Hother k Hk) as [-> ->].
        assert (k ≠ (call_pc, call_depth)) by (intros ->; simpl in Hk; lia).
        split; [by eapply dict_finalize_other | by eapply list_remove_other].
    + by apply IH in H.
Qed.

(** On a step that carries ['gas'], [return_loop] raises nothing, and the
    bound [length active_calls] on its iterations is never hit. *)
Lemma return_loop_total depth fuel l current_pc current_depth g :
  log_gas l = Some g →
  ∀ i cs active,
    table_ok depth cs active →
    (length active ≤ fuel + i)%nat →
    ∃ r, return_loop fuel i l current_pc current_depth cs active = Ok r.
Proof.
  intros Hg. induction fuel as [|fuel IH]; intros i cs active Htab Hlen; simpl.
  - destruct (active !! i) eqn:Hi; [apply lookup_lt_Some in Hi; lia | eauto].
  - destruct (active !! i) as [[call_pc call_depth]|] eqn:Hi; [|eauto].
    destruct (current_pc =? call_pc + 1).
    + assert (Hin : (call_pc, call_depth) ∈ active) by (eapply list_elem_of_lookup_2; eauto).
      destruct (dict_pop_total (call_pc, call_depth) cs) as (ci & cs1 & Hpop).
      { by apply Htab. }
      destruct (list_remove_total _ _ Hin) as (active' & Hrem).
      rewrite Hpop, Hg. simpl. rewrite Hrem. simpl.
      apply IH.
      * eapply table_ok_finalize; eauto.
      * apply list_remove_Ok, Permutation_length in Hrem. simpl in Hrem. lia.
    + apply IH; [done | lia].
Qed.

(** ** One iteration of the main loop *)

Lemma at_marker_true target depth l :
  at_marker target depth l = Ok true ↔
  log_pc l = Some target ∧ log_depth l = Some depth.
Proof.
  unfold at_marker.
  destruct (log_pc l) as [p|], (log_depth l) as [d|]; simpl;
    try destruct (Z.eqb_spec p target); simpl;
    try destruct (Z.eqb_spec d depth); simpl;
    split; try intros [? ?]; intros; simplify_eq; done.
Qed.

Lemma loop_body_inv start_pc depth st l f st' :
  loop_body start_pc depth st l = Ok (f, st') →
  body_case start_pc depth st l f st'.
Proof.
  unfold loop_body. intros H.
  inv_ok H. destruct a as [|].
  { apply at_marker_true in Ha as [? ?]. inv_ok H. by eapply at_start. }
  inv_ok H. destruct a as [|].
  { apply at_marker_true in Ha0 as [? ?]. inv_ok H. by eapply at_end. }
  destruct (monitor st) eqn:Hm; [|inv_ok H; apply skipped; by left].
  inv_ok H. destruct (Z.eqb_spec a (depth + 1)) as [->|Hd]; simpl in H.
  - inv_ok H. destruct (in_stack_increasers _) eqn:Hop.
    + inv_ok H. by eapply at_call.
    + inv_ok H. by eapply at_opcode.
  - inv_ok H. apply skipped. right. congruence.
Qed.

Lemma table_ok_open_frame depth cs active p v :
  table_ok depth cs active →
  table_ok depth (dict_set (p, depth + 1) v cs) (active ++ [(p, depth + 1)]).
Proof.
  intros (Hnd & Hdepth & Hact).
  pose proof (keys_dict_set_perm (p, depth + 1) v cs) as Hperm.
  assert (Hin : ∀ k, k ∈ keys (dict_set (p, depth + 1) v cs) ↔
                     k = (p, depth + 1) ∨ k ∈ keys cs).
  { intros k. rewrite Hperm. case_decide; [|by rewrite elem_of_cons].
    split; [by right | by intros [->|?]]. }
  split_and!.
  - rewrite Hperm. case_decide; [done | by apply NoDup_cons].
  - intros k Hk. apply Hin in Hk. destruct Hk as [->|Hk]; [done|]. by apply Hdepth.
  - intros k Hk. apply elem_of_app in Hk as [?|Hk]; apply Hin; [right; by apply Hact|].
    apply list_elem_of_singleton in Hk. by left.
Qed.

Lemma body_case_state_ok start_pc depth st l f st' :
  body_case start_pc depth st l f st' → state_ok depth st → state_ok depth st'.
Proof.
  unfold state_ok. destruct 1; simpl; try done.
  - apply table_ok_open_frame.
  - eapply return_loop_spec; eauto.
Qed.


(** The iteration on a complete step record, by cases on the step. *)
Lemma loop_body_step start_pc depth st s :
  loop_body start_pc depth st (log_of_step s) =
    if is_start start_pc depth s then Ok (Next, open_window st (s_gas s))
    else if is_end start_pc depth s then Ok (Break, close_window st (s_gas s))
    else if monitor st && (s_depth s =? depth + 1) then
      if is_call s
      then Ok (Next, open_frame st (s_pc s) (s_depth s) (s_gas s) (s_op s))
      else
        '(cs, active) ← return_loop (length (active_calls st)) 0 (log_of_step s)
                          (s_pc s) (s_depth s) (call_stack st) (active_calls st);
        Ok (Next, after_opcode st (s_gasCost s) cs active)
    else Ok (Next, st).
Proof.
  unfold loop_body, at_marker, is_start, is_end, is_call. simpl.
  destruct (s_pc s =? start_pc); simpl;
    destruct (s_pc s =? start_pc + 1); simpl;
    destruct (s_depth s =? depth); simpl;
    destruct (monitor st); simpl;
    destruct (s_depth s =? depth + 1); simpl;
    destruct (in_stack_increasers (s_op s)); simpl; reflexivity.
Qed.

Lemma loop_body_total start_pc depth st s :
  state_ok depth st → ∃ f st', loop_body start_pc depth st (log_of_step s) = Ok (f, st').
Proof.
  intros Hok. rewrite loop_body_step.
  repeat (case_match; eauto).
  destruct (return_loop_total depth (length (active_calls st)) (log_of_step s)
              (s_pc s) (s_depth s) (s_gas s) eq_refl 0%nat
              (call_stack st) (active_calls st) Hok) as ([cs active] & ->); [lia|].
  simpl. eauto.
Qed.

(** ** The scan: [for_logs] *)

Lemma for_logs_app start_pc depth st l1 l2 :
  for_logs start_pc depth st (l1 ++ l2) =
    '(f, st1) ← for_logs start_pc depth st l1;
    match f with
    | Next => for_logs start_pc depth st1 l2
    | Break => Ok (Break, st1)
    end.
Proof.
  revert st. induction l1 as [|l l1 IH]; intros st; simpl; [done|].
  destruct (loop_body start_pc depth st l) as [[[|] st']|e]; simpl; auto.
Qed.

Lemma for_logs_state_ok start_pc depth logs :
  ∀ st f st',
    for_logs start_pc depth st logs = Ok (f, st') →
    state_ok depth st → state_ok depth st'.
Proof.
  induction logs as [|l logs IH]; simpl; intros st f st' H Hok.
  - by inv_ok H.
  - inv_ok H. apply loop_body_inv in Ha.
    pose proof (body_case_state_ok _ _ _ _ _ _ Ha Hok).
    destruct f0; [eauto | by inv_ok H].
Qed.

Lemma init_ok depth : state_ok depth init.
Proof.
  split_and!; simpl; [constructor | by intros ? ?%elem_of_nil | by intros ? ?%elem_of_nil].
Qed.

(** On complete step records the scan raises nothing. *)
Lemma for_logs_total start_pc depth t :
  ∀ st, state_ok depth st →
    ∃ f st', for_logs start_pc depth st (encode t) = Ok (f, st').
Proof.
  induction t as [|s t IH]; simpl; intros st Hok; [eauto|].
  destruct (loop_body_total start_pc depth st s Hok) as (f & st1 & Hb).
  rewrite Hb. simpl. destruct f; [|eauto].
  apply IH. eapply body_case_state_ok; [by apply loop_body_inv | done].
Qed.

Lemma parse_struct_logs_total t start_pc depth :
  ∃ r, parse_struct_logs (encode t) start_pc depth = Ok r.
Proof.
  unfold parse_struct_logs.
  destruct (for_logs_total start_pc depth t init (init_ok depth)) as (f & st & ->).
  simpl. eauto.
Qed.

(** An iteration that does not [break] leaves [gas_end] alone and never
    closes the window; no iteration but the start marker's touches
    [gas_start]. *)
Lemma body_case_next start_pc depth st l st' :
  body_case start_pc depth st l Next st' →
  gas_end st' = gas_end st ∧ (monitor st = true → monitor st' = true).
Proof. inversion 1; subst; simpl; auto. Qed.

Lemma for_logs_next start_pc depth logs :
  ∀ st st',
    for_logs start_pc depth st logs = Ok (Next, st') →
    gas_end st' = gas_end st ∧ (monitor st = true → monitor st' = true).
Proof.
  induction logs as [|l logs IH]; simpl; intros st st' H.
  - by inv_ok H.
  - inv_ok H. destruct f; [|by inv_ok H].
    apply loop_body_inv, body_case_next in Ha as [Hg Hm].
    apply IH in H as [-> Hm']. auto.
Qed.

Lemma is_start_not_end start_pc depth s :
  is_start start_pc depth s = true → is_end start_pc depth s = false.
Proof. unfold is_start, is_end. lia. Qed.

(** The closing marker ends the scan whatever follows it. *)
Lemma loop_body_end start_pc depth st l :
  log_pc l = Some (start_pc + 1) → log_depth l = Some depth →
  loop_body start_pc depth st l =
    (_ ← getitem "op" (log_op l);
     g ← getitem "gas" (log_gas l);
     Ok (Break, close_window st g)).
Proof.
  intros Hpc Hd. unfold loop_body, at_marker. rewrite Hpc, Hd. simpl.
  destruct (Z.eqb_spec (start_pc + 1) start_pc); [lia|].
  by rewrite !Z.eqb_refl.
Qed.

Lemma for_logs_end start_pc depth st l rest :
  log_pc l = Some (start_pc + 1) → log_depth l = Some depth →
  for_logs start_pc depth st (l :: rest) = for_logs start_pc depth st [l]
  ∧ ∀ f st', for_logs start_pc depth st (l :: rest) = Ok (f, st') → f = Break.
Proof.
  intros Hpc Hd. simpl. rewrite (loop_body_end _ _ _ _ Hpc Hd).
  destruct (log_op l), (log_gas l); simpl; split; try done; intros; by simplify_eq.
Qed.

(** Without a start marker nothing is recorded but the first end marker. *)
Lemma for_logs_no_start start_pc depth t :
  Forall (λ s, is_start start_pc depth s = false) t →
  for_logs start_pc depth init (encode t) =
    Ok match List.find (is_end start_pc depth) t with
       | Some e => (Break, close_window init (s_gas e))
       | None => (Next, init)
       end.
Proof.
  induction 1 as [|s t Hs _ IH]; simpl; [done|].
  rewrite loop_body_step, Hs. destruct (is_end start_pc depth s); simpl; [done|].
  apply IH.
Qed.

Lemma last_cons_from_option {A B} (f : A → B) (d : B) (x : A) (l : list A) :
  from_option f d (last (x :: l)) = from_option f (f x) (last l).
Proof. rewrite last_cons. by destruct (last l). Qed.

(** [gas_start] is that of the last start marker the scan reaches. *)
Lemma for_logs_gas_start start_pc depth t :
  ∀ st f st',
    for_logs start_pc depth st (encode t) = Ok (f, st') →
    gas_start st' = from_option s_gas (gas_start st) (last (starts_seen start_pc depth t)).
Proof.
  unfold starts_seen.
  induction t as [|s t IH]; simpl; intros st f st' H; [by inv_ok H|].
  inv_ok H. rewrite loop_body_step in Ha.
  destruct (is_start start_pc depth s) eqn:Hs.
  - rewrite (is_start_not_end _ _ _ Hs). simpl. rewrite Hs.
    rewrite last_cons_from_option. injection Ha as <- <-. by apply IH in H.
  - destruct (is_end start_pc depth s).
    { injection Ha as <- <-. by inv_ok H. }
    simpl. rewrite Hs.
    assert (gas_start s0 = gas_start st ∧ f0 = Next) as [<- ->].
    { repeat case_match; inv_ok Ha; done. }
    by apply IH in H.
Qed.

(** While the window is open and no end marker comes, the scan goes on. *)
Lemma for_logs_no_end start_pc depth post :
  Forall (λ s, is_end start_pc depth s = false) post →
  ∀ st, state_ok depth st →
    ∃ st', for_logs start_pc depth st (encode post) = Ok (Next, st').
Proof.
  induction 1 as [|s post Hs _ IH]; simpl; intros st Hok; [eauto|].
  destruct (loop_body_total start_pc depth st s Hok) as (f & st1 & Hb).
  rewrite Hb. simpl.
  pose proof (loop_body_inv _ _ _ _ _ _ Hb) as Hcase.
  assert (f = Next) as ->.
  { rewrite loop_body_step, Hs in Hb. repeat case_match; by inv_ok Hb. }
  apply IH. by eapply body_case_state_ok.
Qed.

(** ** The iteration bound is never hit *)

Lemma bind_fuel {A B} (m : result A) (f : A → result B) :
  m ≠ Raise OutOfFuel → (∀ a, m = Ok a → f a ≠ Raise OutOfFuel) →
  m ≫= f ≠ Raise OutOfFuel.
Proof.
  destruct m as [a|e]; simpl; intros Hm Hf; [by apply Hf|].
  intros [= ->]. by apply Hm.
Qed.

Lemma getitem_fuel {A} k (o : option A) : getitem k o ≠ Raise OutOfFuel.
Proof. by destruct o. Qed.

Lemma dict_pop_fuel k cs : dict_pop k cs ≠ Raise OutOfFuel.
Proof.
  induction cs as [|[k' v] cs IH]; simpl; [done|].
  case_decide; [done|]. apply bind_fuel; [done | by intros []].
Qed.

Lemma list_remove_fuel (k : key) active : list_remove k active ≠ Raise OutOfFuel.
Proof.
  induction active as [|k' active IH]; simpl; [done|].
  case_decide; [done|]. by apply bind_fuel.
Qed.

Lemma at_marker_fuel target depth l : at_marker target depth l ≠ Raise OutOfFuel.
Proof.
  unfold at_marker. apply bind_fuel; [apply getitem_fuel|].
  intros p _. destruct (p =? target); [|done].
  apply bind_fuel; [apply getitem_fuel | done].
Qed.

Lemma return_loop_fuel fuel l current_pc current_depth :
  ∀ i cs (active : list key),
    (length active ≤ fuel + i)%nat →
    return_loop fuel i l current_pc current_depth cs active ≠ Raise OutOfFuel.
Proof.
  induction fuel as [|fuel IH]; intros i cs active Hlen; simpl.
  - destruct (active !! i) eqn:Hi; [apply lookup_lt_Some in Hi; lia | done].
  - destruct (active !! i) as [[cp cd]|] eqn:Hi; [|done].
    destruct (current_pc =? cp + 1); [|apply IH; lia].
    apply bind_fuel; [apply dict_pop_fuel|]. intros [ci cs1] _.
    apply bind_fuel; [apply getitem_fuel|]. intros g _.
    apply bind_fuel; [apply list_remove_fuel|]. intros active' Hrem.
    apply IH. apply list_remove_Ok, Permutation_length in Hrem. simpl in Hrem. lia.
Qed.

Lemma loop_body_fuel start_pc depth st l :
  loop_body start_pc depth st l ≠ Raise OutOfFuel.
Proof.
  unfold loop_body.
  apply bind_fuel; [apply at_marker_fuel|]. intros [|] _.
  { apply bind_fuel; [apply getitem_fuel|]. intros _ _.
    apply bind_fuel; [apply getitem_fuel | done]. }
  apply bind_fuel; [apply at_marker_fuel|]. intros [|] _.
  { apply bind_fuel; [apply getitem_fuel|]. intros _ _.
    apply bind_fuel; [apply getitem_fuel | done]. }
  destruct (monitor st); [|done].
  apply bind_fuel; [apply getitem_fuel|]. intros d _.
  apply bind_fuel; [apply getitem_fuel|]. intros p _.
  destruct (negb (d =? depth + 1)); [done|].
  apply bind_fuel; [apply getitem_fuel|]. intros o _.
  destruct (in_stack_increasers o).
  { apply bind_fuel; [apply getitem_fuel | done]. }
  apply bind_fuel; [apply getitem_fuel|]. intros c _.
  apply bind_fuel; [apply return_loop_fuel; lia | by intros []].
Qed.

(** Whatever the input, the analysis ends with a result or with one of
    the Python exceptions. *)
Lemma parse_struct_logs_fuel struct_logs start_pc depth :
  parse_struct_logs struct_logs start_pc depth ≠ Raise OutOfFuel.
Proof.
  unfold parse_struct_logs. apply bind_fuel; [|by intros []].
  generalize init. induction struct_logs as [|l logs IH]; intros st; simpl; [done|].
  apply bind_fuel; [apply loop_body_fuel|]. intros [[|] st'] _; [apply IH | done].
Qed.

(** ** Finalization *)

Lemma not_finalized_new_call k p d g o cs :
  finalized k (dict_set (p, d) (new_call p d g o) cs) → finalized k cs.
Proof.
  intros (ci & Hget & Hfin). rewrite dict_get_set in Hget.
  case_decide; simplify_eq.
  - simpl in Hfin. by destruct Hfin.
  - by exists ci.
Qed.

(** A frame becomes finalized only on a step of the window, at the child
    depth, that is not a call-family step and sits at the program counter
    after the frame's call site. *)
Lemma body_case_finalizes start_pc depth st l f st' k :
  body_case start_pc depth st l f st' →
  ¬ finalized k (call_stack st) →
  finalized k (call_stack st') →
  monitor st = true ∧ log_depth l = Some (depth + 1)
  ∧ ∃ o, log_op l = Some o ∧ in_stack_increasers o = false
         ∧ log_pc l = Some (k.1 + 1).
Proof.
  destruct 1 as [| | |p o g|p o c cs active]; simpl; intros Hno Hfin;
    try (by destruct Hno).
  - destruct Hno. by eapply not_finalized_new_call.
  - destruct (decide (p = k.1 + 1)) as [->|Hne]; [by eauto 10|].
    destruct Hno. unfold finalized.
    pose proof (return_loop_spec depth _ _ _ _ _ _ _ _ _ H5) as [_ Ho].
    destruct (Ho k Hne) as [<- _]. done.
Qed.

Lemma loop_body_call start_pc depth st p o g c :
  monitor st = true → in_stack_increasers o = true →
  loop_body start_pc depth st (Log (Some p) (Some (depth + 1)) (Some o) (Some g) c)
  = Ok (Next, open_frame st p (depth + 1) g o).
Proof.
  intros Hm Ho. unfold loop_body, at_marker. simpl.
  assert ((depth + 1 =? depth) = false) as Hd by lia.
  rewrite Hd, Hm, Z.eqb_refl, Ho. simpl.
  by destruct (p =? start_pc), (p =? start_pc + 1).
Qed.

(** With every key at the child depth, the active keys that a return step
    can match are all the same key. *)
Lemma matching_keys_equal depth cs active p (k : key) :
  table_ok depth cs active → k ∈ active → p + 1 = k.1 + 1 → k = (p, depth + 1).
Proof.
  intros (_ & Hdepth & Hact) Hin Hpc.
  specialize (Hdepth k (Hact k Hin)). destruct k as [kp kd]. simpl in *.
  f_equal; lia.
Qed.


(** ** Return matching when the active keys are distinct *)

Lemma return_loop_no_match fuel l current_pc current_depth cs (active : list key) :
  (∀ k, k ∈ active → current_pc ≠ k.1 + 1) →
  ∀ i, (length active ≤ fuel + i)%nat →
    return_loop fuel i l current_pc current_depth cs active = Ok (cs, active).
Proof.
  intros Hno. induction fuel as [|fuel IH]; intros i Hlen; simpl.
  - destruct (active !! i) eqn:Hi; [apply lookup_lt_Some in Hi; lia | done].
  - destruct (active !! i) as [[cp cd]|] eqn:Hi; [|done].
    assert (current_pc ≠ cp + 1) as Hne.
    { apply (Hno (cp, cd)). eapply list_elem_of_lookup_2; eauto. }
    destruct (Z.eqb_spec current_pc (cp + 1)); [done|]. apply IH. lia.
Qed.

Lemma list_remove_NoDup (k : key) active active' :
  list_remove k active = Ok active' → NoDup active → (k ∉ active') ∧ NoDup active'.
Proof.
  intros Hrem Hnd. apply list_remove_Ok in Hrem. rewrite Hrem in Hnd.
  by apply NoDup_cons in Hnd.
Qed.

(** The one matching key is finalized and removed, and nothing else
    happens. *)
Lemma return_loop_match fuel l current_pc current_depth cs (active : list key)
    (K : key) ci cs1 active' g :
  NoDup active →
  (∀ k, k ∈ active → current_pc = k.1 + 1 → k = K) →
  current_pc = K.1 + 1 →
  dict_pop K cs = Ok (ci, cs1) →
  list_remove K active = Ok active' →
  log_gas l = Some g →
  ∀ i j, (length active ≤ fuel + i)%nat → (i ≤ j)%nat → active !! j = Some K →
    return_loop fuel i l current_pc current_depth cs active =
      Ok (dict_set K (finalize ci g current_pc current_depth) cs1, active').
Proof.
  intros Hnd Honly HK Hpop Hrem Hg.
  induction fuel as [|fuel IH]; intros i j Hlen Hij Hj.
  - apply lookup_lt_Some in Hj. lia.
  - simpl. destruct (active !! i) as [[cp cd]|] eqn:Hi.
    2:{ apply lookup_ge_None in Hi. apply lookup_lt_Some in Hj. lia. }
    destruct (Z.eqb_spec current_pc (cp + 1)) as [Heq|Hne].
    + assert ((cp, cd) = K) as HKeq.
      { apply Honly; [eapply list_elem_of_lookup_2; eauto | done]. }
      rewrite HKeq, Hpop, Hg. simpl. rewrite Hrem. simpl.
      destruct (list_remove_NoDup _ _ _ Hrem Hnd) as [Hnin _].
      apply return_loop_no_match.
      * intros k Hk Hpc. apply Hnin.
        assert (k ∈ active) as Hka.
        { apply list_remove_Ok in Hrem. rewrite Hrem. by right. }
        by rewrite <- (Honly k Hka Hpc).
      * apply list_remove_Ok, Permutation_length in Hrem. simpl in Hrem. lia.
    + assert (i ≠ j) as Hneq.
      { intros ->. rewrite Hj in Hi. simplify_eq; simpl in *; lia. }
      apply (IH (S i) j); [lia | lia | done].
Qed.

(** ** Sums over the frame table *)

Lemma add_completed_completed cs : ∀ gs, add_completed gs cs = gs + completed cs.
Proof.
  unfold add_completed.
  induction cs as [|[k ci] cs IH]; intros gs; simpl; [lia|].
  rewrite IH. unfold frame_gas. destruct (gas_used ci); simpl; lia.
Qed.

Lemma completed_dict_set_new k v cs :
  k ∉ keys cs → completed (dict_set k v cs) = completed cs + frame_gas v.
Proof.
  induction cs as [|[k0 v0] cs IH]; simpl; [lia|].
  intros [? ?]%not_elem_of_cons. case_decide; [congruence|].
  simpl. rewrite IH by done. lia.
Qed.

Lemma completed_pop k cs ci cs1 :
  dict_pop k cs = Ok (ci, cs1) → completed cs = frame_gas ci + completed cs1.
Proof.
  revert ci cs1. induction cs as [|[k0 v0] cs IH]; simpl; intros ci cs1 H; [discriminate|].
  case_decide.
  - by injection H as <- <-.
  - inv_ok H. simpl. rewrite (IH _ _ Ha). lia.
Qed.

Lemma pending_sum_remove cs F K active active' :
  list_remove K active = Ok active' →
  pending_sum cs F active = pending cs F K + pending_sum cs F active'.
Proof.
  revert active'. induction active as [|k active IH]; simpl; intros active' H; [discriminate|].
  case_decide; subst.
  - by injection H as <-.
  - inv_ok H. simpl. rewrite (IH _ Ha). lia.
Qed.

Lemma pending_sum_app cs F a1 a2 :
  pending_sum cs F (a1 ++ a2) = pending_sum cs F a1 + pending_sum cs F a2.
Proof. induction a1 as [|k a1 IH]; simpl; [done|]. rewrite IH. lia. Qed.

Lemma pending_sum_ext cs cs' F F' active :
  (∀ k, k ∈ active → pending cs F k = pending cs' F' k) →
  pending_sum cs F active = pending_sum cs' F' active.
Proof.
  induction active as [|k active IH]; simpl; intros H; [done|].
  rewrite H by left. rewrite IH; [done|]. intros k' Hk'. apply H. by right.
Qed.

Lemma pending_sum_no_steps cs active : pending_sum cs [] active = 0.
Proof.
  induction active as [|k active IH]; simpl; [done|]. rewrite IH.
  unfold pending. simpl. by destruct (dict_get k cs).
Qed.

(** ** Accounting, when no call site is passed twice *)

Lemma call_sites_cons s F :
  call_sites (s :: F) = if is_call s then s_pc s :: call_sites F else call_sites F.
Proof. unfold call_sites. simpl. by destruct (is_call s). Qed.

Lemma pending_skip_call cs s F k :
  is_call s = true → pending cs (s :: F) k = pending cs F k.
Proof. intros Hc. unfold pending, return_point. simpl. by rewrite Hc. Qed.

Lemma pending_skip_other cs s F (k : key) :
  s_pc s ≠ k.1 + 1 → pending cs (s :: F) k = pending cs F k.
Proof.
  intros Hne. unfold pending, return_point. simpl.
  destruct (Z.eqb_spec (s_pc s) (k.1 + 1)); [done|].
  by rewrite andb_false_r.
Qed.

Lemma pending_hit cs s F (k : key) ci :
  is_call s = false → s_pc s = k.1 + 1 → dict_get k cs = Some ci →
  pending cs (s :: F) k = gas_at_call ci - s_gas s.
Proof.
  intros Hc Hpc Hget. unfold pending, return_point. simpl.
  by rewrite Hget, Hc, Hpc, Z.eqb_refl.
Qed.

Lemma pending_same_frame cs cs' F k :
  dict_get k cs' = dict_get k cs → pending cs' F k = pending cs F k.
Proof. unfold pending. by intros ->. Qed.

(** A call-family step at a fresh site. *)
Lemma open_frame_accounting depth st s F :
  fresh_sites depth st (s :: F) →
  is_call s = true → s_depth s = depth + 1 →
  let st' := open_frame st (s_pc s) (s_depth s) (s_gas s) (s_op s) in
  fresh_sites depth st' F ∧ owed st' F = owed st (s :: F).
Proof.
  intros (Hok & Hnd & Hunf & Hsites & Hfresh) Hc Hd st'.
  rewrite call_sites_cons, Hc in Hsites, Hfresh.
  apply NoDup_cons in Hsites as [Hnew Hsites].
  assert (Hk : (s_pc s, depth + 1) ∉ keys (call_stack st)) by (apply Hfresh; by left).
  assert (Hka : (s_pc s, depth + 1) ∉ active_calls st).
  { intros Hin. apply Hk. by apply Hok. }
  subst st'. rewrite Hd. split.
  - split_and!; simpl.
    + by apply table_ok_open_frame.
    + apply NoDup_app. split_and!; [done | | apply NoDup_singleton].
      intros k Hin ->%list_elem_of_singleton. done.
    + intros k Hin Hfin. apply not_finalized_new_call in Hfin.
      apply elem_of_app in Hin as [Hin|Hin]; [by apply (Hunf k)|].
      apply list_elem_of_singleton in Hin as ->.
      destruct Hfin as (ci & Hget & _). apply Hk. by eapply dict_get_Some_keys.
    + done.
    + intros p Hp. rewrite keys_dict_set_notin by done.
      rewrite elem_of_app, list_elem_of_singleton.
      intros [Hin|[= ->]]; [|done]. apply (Hfresh p); [by right | done].
  - unfold owed. simpl. rewrite Hc.
    rewrite completed_dict_set_new by done.
    rewrite pending_sum_app. simpl.
    rewrite (pending_sum_ext _ (call_stack st) F (s :: F) (active_calls st)).
    2:{ intros k Hin. rewrite pending_skip_call by done.
        apply pending_same_frame. rewrite dict_get_set, decide_False; [done|].
        by intros ->. }
    unfold pending, returns_to. simpl.
    rewrite dict_get_set, decide_True by done. simpl.
    unfold frame_gas. simpl.
    destruct (List.find (return_point (s_pc s)) F); lia.
Qed.

Lemma keys_finalize_perm k ci cs cs1 fin :
  NoDup (keys cs) → dict_pop k cs = Ok (ci, cs1) →
  keys (dict_set k fin cs1) ≡ₚ keys cs.
Proof.
  intros Hnd Hpop. apply dict_pop_Ok in Hpop as (_ & Hperm & _).
  rewrite Hperm in Hnd. apply NoDup_cons in Hnd as [Hk _].
  rewrite keys_dict_set_notin by done. rewrite Hperm. apply Permutation_app_comm.
Qed.

(** A step that is not a call-family step: its cost is added, and the
    frame of the call site in front of it, if active, is finalized. *)
Lemma opcode_accounting depth st s F cs' active' :
  fresh_sites depth st (s :: F) →
  is_call s = false → s_depth s = depth + 1 →
  return_loop (length (active_calls st)) 0 (log_of_step s) (s_pc s) (s_depth s)
    (call_stack st) (active_calls st) = Ok (cs', active') →
  let st' := after_opcode st (s_gasCost s) cs' active' in
  fresh_sites depth st' F ∧ owed st' F = owed st (s :: F).
Proof.
  intros (Hok & Hnd & Hunf & Hsites & Hfresh) Hc Hd Hloop st'.
  rewrite call_sites_cons, Hc in Hsites, Hfresh.
  set (K := (s_pc s - 1, depth + 1)).
  assert (Honly : ∀ k, k ∈ active_calls st → s_pc s = k.1 + 1 → k = K).
  { intros k Hin Hpc. eapply matching_keys_equal; [exact Hok | done | lia]. }
  destruct (decide (K ∈ active_calls st)) as [Hin|Hnin].
  - apply list_elem_of_lookup_1 in Hin as Hj. destruct Hj as [j Hj].
    destruct (dict_pop_total K (call_stack st)) as (ci & cs1 & Hpop);
      [by apply Hok|].
    destruct (list_remove_total K _ Hin) as (act1 & Hrem).
    pose proof (return_loop_match (length (active_calls st)) (log_of_step s)
                  (s_pc s) (s_depth s) (call_stack st) (active_calls st)
                  K ci cs1 act1 (s_gas s) Hnd Honly ltac:(simpl; lia) Hpop Hrem
                  eq_refl 0%nat j ltac:(lia) ltac:(lia) Hj) as Hm.
    rewrite Hm in Hloop. clear Hm.
    injection Hloop as <- <-.
    destruct (list_remove_NoDup _ _ _ Hrem Hnd) as [HKnin Hnd1].
    assert (Hsub : ∀ k, k ∈ act1 → k ∈ active_calls st ∧ k ≠ K).
    { intros k Hk. split; [|by intros ->].
      apply list_remove_Ok in Hrem. rewrite Hrem. by right. }
    assert (Hget : dict_get K (call_stack st) = Some ci)
      by (by apply dict_pop_Ok in Hpop as (? & _)).
    assert (Hci : frame_gas ci = 0).
    { unfold frame_gas. destruct (gas_used ci) eqn:Hgu; [|done].
      destruct (Hunf K Hin). exists ci. by rewrite Hgu. }
    subst st'. split.
    + split_and!; simpl.
      * eapply table_ok_finalize; eauto.
      * done.
      * intros k Hk (ci' & Hget' & Hfin). destruct (Hsub k Hk) as [Hka HkK].
        apply (Hunf k Hka). exists ci'. split; [|done].
        by rewrite <- (dict_finalize_other _ _ _ _ _ (finalize ci (s_gas s) (s_pc s) (s_depth s))
                        Hpop HkK).
      * done.
      * intros p Hp. rewrite (keys_finalize_perm _ _ _ _ _ (proj1 Hok) Hpop).
        by apply Hfresh.
    + unfold owed. simpl. rewrite Hc.
      rewrite completed_dict_set_new.
      2:{ apply dict_pop_Ok in Hpop as (_ & Hperm & _).
          destruct Hok as (HndK & _). rewrite Hperm in HndK.
          by apply NoDup_cons in HndK as [? _]. }
      rewrite (completed_pop _ _ _ _ Hpop), Hci.
      rewrite (pending_sum_remove _ (s :: F) K _ _ Hrem).
      rewrite (pending_hit _ _ _ K ci Hc ltac:(simpl; lia) Hget).
      rewrite (pending_sum_ext _ (call_stack st) F (s :: F) act1).
      2:{ intros k Hk. destruct (Hsub k Hk) as [Hka HkK].
          rewrite pending_skip_other; [|intros Hpc; by apply HkK, Honly].
          apply pending_same_frame. by eapply dict_finalize_other. }
      unfold frame_gas. simpl. lia.
  - assert (Hno : ∀ k, k ∈ active_calls st → s_pc s ≠ k.1 + 1).
    { intros k Hk Hpc. apply Hnin. by rewrite <- (Honly k Hk Hpc). }
    rewrite (return_loop_no_match _ _ _ _ _ _ Hno 0%nat) in Hloop by lia.
    injection Hloop as <- <-. subst st'. split.
    + by split_and!.
    + unfold owed. simpl. rewrite Hc.
      rewrite (pending_sum_ext _ (call_stack st) (s :: F) F (active_calls st)).
      2:{ intros k Hk. apply pending_skip_other. by apply Hno. }
      lia.
Qed.

Lemma to_scan_cons start_pc depth mon s t :
  to_scan start_pc depth mon (s :: t) =
    if is_start start_pc depth s then to_scan start_pc depth true t
    else if is_end start_pc depth s then []
    else if mon && (s_depth s =? depth + 1) then s :: to_scan start_pc depth mon t
    else to_scan start_pc depth mon t.
Proof.
  unfold to_scan. simpl.
  destruct (is_start start_pc depth s) eqn:Hs.
  - rewrite (is_start_not_end _ _ _ Hs). simpl. rewrite Hs.
    assert ((s_depth s =? depth + 1) = false) as Hd by (unfold is_start in Hs; lia).
    destruct mon; simpl; by rewrite ?Hd.
  - destruct (is_end start_pc depth s); [by destruct mon|].
    destruct mon; simpl; [|by rewrite Hs].
    by destruct (s_depth s =? depth + 1).
Qed.

Lemma fresh_sites_same_table depth st st' F :
  call_stack st' = call_stack st → active_calls st' = active_calls st →
  fresh_sites depth st F → fresh_sites depth st' F.
Proof. unfold fresh_sites, state_ok. by intros -> ->. Qed.

Lemma owed_same_table st st' F :
  call_stack st' = call_stack st → active_calls st' = active_calls st →
  gas_sum st' = gas_sum st → owed st' F = owed st F.
Proof. unfold owed. by intros -> -> ->. Qed.

(** The result's gas sum, from any state of a scan in which no call site
    is passed twice. *)
Lemma for_logs_accounting start_pc depth t :
  ∀ st f st',
    for_logs start_pc depth st (encode t) = Ok (f, st') →
    fresh_sites depth st (to_scan start_pc depth (monitor st) t) →
    gas_sum st' + completed (call_stack st') =
      owed st (to_scan start_pc depth (monitor st) t).
Proof.
  induction t as [|s t IH]; intros st f st' H Hfresh.
  - simpl in H. inv_ok H. unfold owed.
    assert (to_scan start_pc depth (monitor st') [] = []) as -> by (by destruct (monitor st')).
    simpl. rewrite pending_sum_no_steps. lia.
  - simpl in H. inv_ok H. rewrite loop_body_step in Ha.
    rewrite to_scan_cons in Hfresh |- *.
    destruct (is_start start_pc depth s).
    { injection Ha as <- <-.
      rewrite (IH _ _ _ H); [by apply owed_same_table|].
      by apply (fresh_sites_same_table depth st). }
    destruct (is_end start_pc depth s).
    { injection Ha as <- <-. inv_ok H. unfold owed. simpl.
      rewrite pending_sum_no_steps. lia. }
    destruct (monitor st) eqn:Hm; simpl in *.
    2:{ injection Ha as <- <-. rewrite (IH _ _ _ H); by rewrite Hm. }
    destruct (Z.eqb_spec (s_depth s) (depth + 1)) as [Hd|Hd].
    2:{ injection Ha as <- <-. rewrite (IH _ _ _ H); by rewrite Hm. }
    destruct (is_call s) eqn:Hc.
    + injection Ha as <- <-.
      destruct (open_frame_accounting _ _ _ _ Hfresh Hc Hd) as [Hfresh' <-].
      rewrite (IH _ _ _ H); simpl; by rewrite Hm.
    + inv_ok Ha.
      destruct (opcode_accounting _ _ _ _ _ _ Hfresh Hc Hd Ha0) as [Hfresh' <-].
      rewrite (IH _ _ _ H); simpl; by rewrite Hm.
Qed.

(** ** The trace source *)

(** On an object whose ["result"] is absent or an object, the lookup by
    cases. *)
Lemma get_struct_logs_object d :
  object_shaped (JDict d) →
  get_struct_logs_from_file (JDict d) =
    match json_lookup "result" d with
    | Some (JDict r) =>
        match json_lookup "structLogs" r with
        | Some v => Ok v
        | None =>
            match json_lookup "structLogs" d with
            | Some v => Ok v
            | None => Raise (KeyError not_found)
            end
        end
    | _ =>
        match json_lookup "structLogs" d with
        | Some v => Ok v
        | None => Raise (KeyError not_found)
        end
    end.
Proof.
  unfold get_struct_logs_from_file, object_shaped. simpl.
  destruct (json_lookup "result" d) as [[| | | | |r]|]; simpl; try done.
  - destruct (json_lookup "structLogs" r); simpl; [done|].
    by destruct (json_lookup "structLogs" d).
  - by destruct (json_lookup "structLogs" d).
Qed.

(** ** What the scan reads and what it passes over *)

(** [gas_end] is that of the first end marker, met with the window open
    or not; the loop is left by [break] exactly when there is one. *)
Lemma for_logs_gas_end start_pc depth t :
  ∀ st f st',
    for_logs start_pc depth st (encode t) = Ok (f, st') →
    gas_end st' = from_option s_gas (gas_end st) (List.find (is_end start_pc depth) t)
    ∧ (f = Break ↔ is_Some (List.find (is_end start_pc depth) t)).
Proof.
  induction t as [|s t IH]; simpl; intros st f st' H.
  - inv_ok H. split; [done|]. split; [done | by intros []].
  - inv_ok H. rewrite loop_body_step in Ha.
    destruct (is_start start_pc depth s) eqn:Hs.
    { rewrite (is_start_not_end _ _ _ Hs). injection Ha as <- <-.
      by apply IH in H. }
    destruct (is_end start_pc depth s).
    { injection Ha as <- <-. inv_ok H. simpl. split; [done|]. split; [by eexists | done]. }
    assert (gas_end s0 = gas_end st ∧ f0 = Next) as [<- ->].
    { repeat case_match; inv_ok Ha; done. }
    by apply IH in H.
Qed.

(** In front of the window, a step that is no marker changes nothing. *)
Lemma for_logs_before_window start_pc depth pre :
  Forall (λ s, is_start start_pc depth s = false ∧ is_end start_pc depth s = false) pre →
  ∀ st, monitor st = false →
    for_logs start_pc depth st (encode pre) = Ok (Next, st).
Proof.
  induction 1 as [|s pre [Hs He] _ IH]; simpl; intros st Hm; [done|].
  rewrite loop_body_step, Hs, He, Hm. simpl. by apply IH.
Qed.

Lemma for_logs_in_view start_pc depth t :
  ∀ st,
    for_logs start_pc depth st (encode (List.filter (in_view_of start_pc depth) t)) =
    for_logs start_pc depth st (encode t).
Proof.
  induction t as [|s t IH]; simpl; intros st; [done|].
  unfold in_view_of at 1.
  destruct (is_start start_pc depth s) eqn:Hs; simpl.
  { destruct (loop_body start_pc depth st (log_of_step s)) as [[[|] st1]|e]; simpl; auto. }
  destruct (is_end start_pc depth s) eqn:He; simpl.
  { destruct (loop_body start_pc depth st (log_of_step s)) as [[[|] st1]|e]; simpl; auto. }
  destruct (s_depth s =? depth + 1) eqn:Hd; simpl.
  { destruct (loop_body start_pc depth st (log_of_step s)) as [[[|] st1]|e]; simpl; auto. }
  rewrite loop_body_step, Hs, He, Hd, andb_false_r. simpl. apply IH.
Qed.

(** ** The exceptions of the analysis *)

Lemma bind_raises_only {A B} (P : exn → Prop) (m : result A) (f : A → result B) :
  raises_only P m → (∀ a, m = Ok a → raises_only P (f a)) →
  raises_only P (m ≫= f).
Proof.
  unfold raises_only. destruct m as [a|e0]; simpl; intros Hm Hf e H.
  - by eapply Hf.
  - injection H as <-. by apply Hm.
Qed.

Lemma Ok_raises_only {A} (P : exn → Prop) (a : A) : raises_only P (Ok a).
Proof. by intros e. Qed.

Lemma getitem_raises_only {A} k (o : option A) :
  k ∈ field_names → raises_only missing_field (getitem k o).
Proof. intros Hk e. destruct o; simpl; [done|]. intros [= <-]. by exists k. Qed.

Lemma at_marker_raises_only target depth l :
  raises_only missing_field (at_marker target depth l).
Proof.
  unfold at_marker.
  apply bind_raises_only; [apply getitem_raises_only; repeat constructor|].
  intros p _. destruct (p =? target); [|apply Ok_raises_only].
  apply bind_raises_only; [apply getitem_raises_only; repeat constructor|].
  intros; apply Ok_raises_only.
Qed.

(** With every active key in the table, neither [pop] nor [remove] can
    fail in [return_loop]: only the read of ['gas'] can. *)
Lemma return_loop_raises_only depth fuel l current_pc current_depth :
  ∀ i cs (active : list key),
    table_ok depth cs active → (length active ≤ fuel + i)%nat →
    raises_only missing_field
      (return_loop fuel i l current_pc current_depth cs active).
Proof.
  induction fuel as [|fuel IH]; intros i cs active Htab Hlen; simpl.
  - destruct (active !! i) eqn:Hi; [apply lookup_lt_Some in Hi; lia|].
    apply Ok_raises_only.
  - destruct (active !! i) as [[cp cd]|] eqn:Hi; [|apply Ok_raises_only].
    destruct (current_pc =? cp + 1); [|apply IH; [done | lia]].
    assert (Hin : (cp, cd) ∈ active) by (eapply list_elem_of_lookup_2; eauto).
    destruct (dict_pop_total (cp, cd) cs) as (ci & cs1 & Hpop); [by apply Htab|].
    destruct (list_remove_total _ _ Hin) as (active' & Hrem).
    rewrite Hpop. simpl.
    apply bind_raises_only; [apply getitem_raises_only; repeat constructor|].
    intros g _. rewrite Hrem. simpl. apply IH.
    + eapply table_ok_finalize; eauto.
    + apply list_remove_Ok, Permutation_length in Hrem. simpl in Hrem. lia.
Qed.

Lemma loop_body_raises_only start_pc depth st l :
  state_ok depth st →
  raises_only missing_field (loop_body start_pc depth st l).
Proof.
  intros Hok. unfold loop_body.
  apply bind_raises_only; [apply at_marker_raises_only|]. intros [|] _.
  { apply bind_raises_only; [apply getitem_raises_only; repeat constructor|]. intros _ _.
    apply bind_raises_only; [apply getitem_raises_only; repeat constructor|].
    intros; apply Ok_raises_only. }
  apply bind_raises_only; [apply at_marker_raises_only|]. intros [|] _.
  { apply bind_raises_only; [apply getitem_raises_only; repeat constructor|]. intros _ _.
    apply bind_raises_only; [apply getitem_raises_only; repeat constructor|].
    intros; apply Ok_raises_only. }
  destruct (monitor st); [|apply Ok_raises_only].
  apply bind_raises_only; [apply getitem_raises_only; repeat constructor|]. intros d Hd.
  apply bind_raises_only; [apply getitem_raises_only; repeat constructor|]. intros p _.
  destruct (Z.eqb_spec d (depth + 1)) as [->|?]; simpl; [|apply Ok_raises_only].
  apply bind_raises_only; [apply getitem_raises_only; repeat constructor|]. intros o _.
  destruct (in_stack_increasers o).
  { apply bind_raises_only; [apply getitem_raises_only; repeat constructor|].
    intros; apply Ok_raises_only. }
  apply bind_raises_only; [apply getitem_raises_only; repeat constructor|]. intros c _.
  apply bind_raises_only; [by eapply return_loop_raises_only; [|lia]|].
  intros [] _. apply Ok_raises_only.
Qed.

Lemma for_logs_raises_only start_pc depth logs :
  ∀ st, state_ok depth st →
    raises_only missing_field (for_logs start_pc depth st logs).
Proof.
  induction logs as [|l logs IH]; simpl; intros st Hok; [apply Ok_raises_only|].
  apply bind_raises_only; [by apply loop_body_raises_only|].
  intros [[|] st1] Hb; [|apply Ok_raises_only].
  apply IH. eapply body_case_state_ok; [by apply loop_body_inv | done].
Qed.

Lemma loop_body_no_pc start_pc depth st l :
  log_pc l = None → loop_body start_pc depth st l = Raise (KeyError "pc").
Proof. intros H. unfold loop_body, at_marker. by rewrite H. Qed.

(** ** Where ['gasCost'] is read *)

Lemma loop_body_without_gasCost start_pc depth st s :
  charged depth s = false →
  loop_body start_pc depth st (without_gasCost s) =
  loop_body start_pc depth st (log_of_step s).
Proof.
  unfold charged, is_call, loop_body, at_marker. simpl. intros H.
  destruct (s_pc s =? start_pc), (s_pc s =? start_pc + 1), (s_depth s =? depth),
    (monitor st), (s_depth s =? depth + 1), (in_stack_increasers (s_op s));
    simpl in *; done.
Qed.

Lemma for_logs_sparse start_pc depth t :
  ∀ st, for_logs start_pc depth st (encode_sparse depth t) =
        for_logs start_pc depth st (encode t).
Proof.
  induction t as [|s t IH]; simpl; intros st; [done|].
  destruct (charged depth s) eqn:Hc.
  - destruct (loop_body start_pc depth st (log_of_step s)) as [[[|] st1]|e]; simpl; auto.
  - rewrite (loop_body_without_gasCost _ _ _ _ Hc).
    destruct (loop_body start_pc depth st (log_of_step s)) as [[[|] st1]|e]; simpl; auto.
Qed.

(** ** The keys of the frame table *)

Lemma return_loop_keys depth fuel l current_pc current_depth :
  ∀ i cs active cs' active',
    return_loop fuel i l current_pc current_depth cs active = Ok (cs', active') →
    table_ok depth cs active → keys cs' ≡ₚ keys cs.
Proof.
  induction fuel as [|fuel IH]; intros i cs active cs' active' H Htab; simpl in H.
  - destruct (active !! i); [discriminate|]. by injection H as <- <-.
  - destruct (active !! i) as [[cp cd]|] eqn:Hi; [|by injection H as <- <-].
    destruct (current_pc =? cp + 1); [|by eapply IH].
    inv_ok H. rewrite (IH _ _ _ _ _ H).
    + eapply keys_finalize_perm; [apply Htab | done].
    + eapply table_ok_finalize; eauto.
Qed.

Lemma elem_of_keys_dict_set k k0 v cs :
  k ∈ keys (dict_set k0 v cs) ↔ k = k0 ∨ k ∈ keys cs.
Proof.
  rewrite keys_dict_set_perm. case_decide; [|by rewrite elem_of_cons].
  split; [by right | by intros [->|?]].
Qed.

(** The table holds the frames it had, and one for each call-family step
    at the child depth that the scan reads. *)
Lemma for_logs_keys start_pc depth t :
  ∀ st f st',
    for_logs start_pc depth st (encode t) = Ok (f, st') →
    state_ok depth st →
    ∀ k, k ∈ keys (call_stack st') ↔
         k ∈ keys (call_stack st)
         ∨ ∃ s, s ∈ to_scan start_pc depth (monitor st) t
                ∧ is_call s = true ∧ k = (s_pc s, depth + 1).
Proof.
  induction t as [|s t IH]; intros st f st' H Hok k.
  - simpl in H. inv_ok H.
    assert (to_scan start_pc depth (monitor st') [] = []) as -> by (by destruct (monitor st')).
    split; [by left|]. intros [?|(s & Hs & _)]; [done | by apply elem_of_nil in Hs].
  - simpl in H. inv_ok H. rewrite loop_body_step in Ha. rewrite to_scan_cons.
    destruct (is_start start_pc depth s).
    { injection Ha as <- <-. by rewrite (IH _ _ _ H Hok k). }
    destruct (is_end start_pc depth s).
    { injection Ha as <- <-. inv_ok H. simpl.
      split; [by left|]. intros [?|(s' & Hs & _)]; [done | by apply elem_of_nil in Hs]. }
    destruct (monitor st) eqn:Hm; simpl in *.
    2:{ injection Ha as <- <-. rewrite (IH _ _ _ H Hok k). by rewrite Hm. }
    destruct (Z.eqb_spec (s_depth s) (depth + 1)) as [Hd|Hd].
    2:{ injection Ha as <- <-. rewrite (IH _ _ _ H Hok k). by rewrite Hm. }
    destruct (is_call s) eqn:Hc.
    + injection Ha as <- <-.
      assert (Hok1 : state_ok depth (open_frame st (s_pc s) (s_depth s) (s_gas s) (s_op s))).
      { rewrite Hd. by apply table_ok_open_frame. }
      rewrite (IH _ _ _ H Hok1 k). simpl. rewrite Hm, elem_of_keys_dict_set, Hd.
      split.
      * intros [[->|?]|(s' & Hs' & ? & ?)]; [right; exists s | by left | right; exists s'].
        -- split_and!; [by left | done | done].
        -- split_and!; [by right | done | done].
      * intros [?|(s' & Hs' & Hc' & ->)]; [by left; right|].
        apply elem_of_cons in Hs' as [->|Hs']; [by left; left|].
        right. by exists s'.
    + inv_ok Ha.
      assert (Hok1 : state_ok depth (after_opcode st (s_gasCost s) l l0)).
      { eapply (return_loop_spec depth); eauto. }
      rewrite (IH _ _ _ H Hok1 k). simpl.
      rewrite (return_loop_keys depth _ _ _ _ _ _ _ _ _ Ha0 Hok), Hm.
      split.
      * intros [?|(s' & Hs' & ? & ?)]; [by left|]. right. exists s'.
        split_and!; [by right | done | done].
      * intros [?|(s' & Hs' & Hc' & ->)]; [by left|].
        apply elem_of_cons in Hs' as [->|Hs']; [congruence|].
        right. by exists s'.
Qed.

(** ** The shape of the frame descriptors *)

Lemma dict_set_Forall (P : key * call_info → Prop) k v cs :
  P (k, v) → Forall P cs → Forall P (dict_set k v cs).
Proof.
  intros Hv. induction 1 as [|[k0 v0] cs H0 Hcs IH]; simpl; [by constructor|].
  case_decide; subst; by constructor.
Qed.

Lemma dict_pop_Forall (P : key * call_info → Prop) k cs ci cs1 :
  dict_pop k cs = Ok (ci, cs1) → Forall P cs → P (k, ci) ∧ Forall P cs1.
Proof.
  revert ci cs1. induction cs as [|[k0 v0] cs IH]; simpl; intros ci cs1 H Hall;
    [discriminate|].
  apply Forall_cons in Hall as [H0 Hall].
  case_decide; subst.
  - by injection H as <- <-.
  - inv_ok H. destruct (IH _ _ Ha Hall). split; [done | by constructor].
Qed.

Lemma frame_ok_finalize depth cp cd ci g :
  frame_ok depth ((cp, cd), ci) →
  frame_ok depth ((cp, cd), finalize ci g (cp + 1) (depth + 1)).
Proof.
  unfold frame_ok. simpl. intros (Hk & Hd & Hop & _).
  injection Hk as -> ->. done.
Qed.

Lemma return_loop_frames depth fuel l current_pc :
  ∀ i cs active cs' active',
    return_loop fuel i l current_pc (depth + 1) cs active = Ok (cs', active') →
    Forall (frame_ok depth) cs → Forall (frame_ok depth) cs'.
Proof.
  induction fuel as [|fuel IH]; intros i cs active cs' active' H Hall; simpl in H.
  - destruct (active !! i); [discriminate|]. by injection H as <- <-.
  - destruct (active !! i) as [[cp cd]|] eqn:Hi; [|by injection H as <- <-].
    destruct (Z.eqb_spec current_pc (cp + 1)) as [->|?]; [|by eapply IH].
    inv_ok H. destruct (dict_pop_Forall _ _ _ _ _ Ha Hall) as [Hci Hall1].
    eapply IH; [exact H|].
    apply dict_set_Forall; [by apply frame_ok_finalize | done].
Qed.

Lemma body_case_frames start_pc depth st l f st' :
  body_case start_pc depth st l f st' →
  Forall (frame_ok depth) (call_stack st) → Forall (frame_ok depth) (call_stack st').
Proof.
  destruct 1; simpl; try done.
  - intros Hall. apply dict_set_Forall; [|done]. by split_and!.
  - by eapply return_loop_frames.
Qed.

Lemma for_logs_frames start_pc depth logs :
  ∀ st f st',
    for_logs start_pc depth st logs = Ok (f, st') →
    Forall (frame_ok depth) (call_stack st) → Forall (frame_ok depth) (call_stack st').
Proof.
  induction logs as [|l logs IH]; simpl; intros st f st' H Hall.
  - by inv_ok H.
  - inv_ok H. apply loop_body_inv, body_case_frames in Ha; [|done].
    destruct f0; [eauto | by inv_ok H].
Qed.

Lemma print_calls_total depth cs :
  Forall (frame_ok depth) cs → ∃ ls, print_calls cs = Ok ls.
Proof.
  induction 1 as [|[k ci] cs (_ & _ & _ & Hret) _ [ls IH]]; simpl; [eauto|].
  unfold print_call. simpl in *. rewrite IH.
  destruct (gas_used ci); [destruct Hret as [-> ->]|]; simpl; eauto.
Qed.

(** ** The frame of each call, when no call site is passed twice *)

Lemma settle_skip_call depth s F k ci :
  is_call s = true → settle depth (s :: F) k ci = settle depth F k ci.
Proof. intros Hc. unfold settle, return_point. simpl. by rewrite Hc. Qed.

Lemma settle_skip_other depth s F (k : key) ci :
  s_pc s ≠ k.1 + 1 → settle depth (s :: F) k ci = settle depth F k ci.
Proof.
  intros Hne. unfold settle, return_point. simpl.
  destruct (Z.eqb_spec (s_pc s) (k.1 + 1)); [done|].
  by rewrite andb_false_r.
Qed.

Lemma settle_hit depth s F (k : key) ci :
  is_call s = false → s_pc s = k.1 + 1 →
  settle depth (s :: F) k ci = finalize ci (s_gas s) (s_pc s) (depth + 1).
Proof.
  intros Hc Hpc. unfold settle, return_point. simpl.
  destruct (Z.eqb_spec (s_pc s) (k.1 + 1)); [|done].
  by rewrite Hc.
Qed.

(** With distinct active keys, [return_loop] on a complete step either
    finalizes and removes the key in front of the step, or does nothing. *)
Lemma return_loop_distinct depth st s cs' active' :
  state_ok depth st → NoDup (active_calls st) →
  return_loop (length (active_calls st)) 0 (log_of_step s) (s_pc s) (depth + 1)
    (call_stack st) (active_calls st) = Ok (cs', active') →
  let K := (s_pc s - 1, depth + 1) in
  (K ∈ active_calls st
   ∧ ∃ ci cs1,
       dict_pop K (call_stack st) = Ok (ci, cs1)
       ∧ cs' = dict_set K (finalize ci (s_gas s) (s_pc s) (depth + 1)) cs1
       ∧ list_remove K (active_calls st) = Ok active')
  ∨ ((K ∉ active_calls st) ∧ cs' = call_stack st ∧ active' = active_calls st).
Proof.
  intros Hok Hnd Hloop K.
  assert (Honly : ∀ k, k ∈ active_calls st → s_pc s = k.1 + 1 → k = K).
  { intros k Hin Hpc. eapply matching_keys_equal; [exact Hok | done | lia]. }
  destruct (decide (K ∈ active_calls st)) as [Hin|Hnin]; [left|right].
  - apply list_elem_of_lookup_1 in Hin as Hj. destruct Hj as [j Hj].
    destruct (dict_pop_total K (call_stack st)) as (ci & cs1 & Hpop);
      [by apply Hok|].
    destruct (list_remove_total K _ Hin) as (act1 & Hrem).
    pose proof (return_loop_match (length (active_calls st)) (log_of_step s)
                  (s_pc s) (depth + 1) (call_stack st) (active_calls st)
                  K ci cs1 act1 (s_gas s) Hnd Honly ltac:(simpl; lia) Hpop Hrem
                  eq_refl 0%nat j ltac:(lia) ltac:(lia) Hj) as Hm.
    rewrite Hm in Hloop. injection Hloop as <- <-.
    split; [done|]. by exists ci, cs1.
  - assert (Hno : ∀ k, k ∈ active_calls st → s_pc s ≠ k.1 + 1).
    { intros k Hk Hpc. apply Hnin. by rewrite <- (Honly k Hk Hpc). }
    rewrite (return_loop_no_match _ _ _ _ _ _ Hno 0%nat) in Hloop by lia.
    by injection Hloop as <- <-.
Qed.

Lemma for_logs_settled start_pc depth t :
  ∀ st f st',
    for_logs start_pc depth st (encode t) = Ok (f, st') →
    fresh_sites depth st (to_scan start_pc depth (monitor st) t) →
    (∀ k ci, dict_get k (call_stack st) = Some ci →
       dict_get k (call_stack st') =
         Some (if decide (k ∈ active_calls st)
               then settle depth (to_scan start_pc depth (monitor st) t) k ci
               else ci))
    ∧ (∀ F1 c F2,
         to_scan start_pc depth (monitor st) t = F1 ++ c :: F2 →
         is_call c = true →
         dict_get (s_pc c, depth + 1) (call_stack st') = Some (expected_frame depth c F2)).
Proof.
  assert (Hnil : ∀ st : state,
    (∀ k ci, dict_get k (call_stack st) = Some ci →
       dict_get k (call_stack st) =
         Some (if decide (k ∈ active_calls st) then settle depth [] k ci else ci))
    ∧ (∀ F1 c F2, [] = F1 ++ c :: F2 → is_call c = true →
         dict_get (s_pc c, depth + 1) (call_stack st) = Some (expected_frame depth c F2))).
  { intros st. split.
    - intros k ci ->. by case_decide.
    - intros F1 c F2 HF. by destruct F1. }
  induction t as [|s t IH]; intros st f st' H Hfresh.
  - simpl in H. inv_ok H.
    assert (to_scan start_pc depth (monitor st') [] = []) as -> by (by destruct (monitor st')).
    apply Hnil.
  - simpl in H. inv_ok H. rewrite loop_body_step in Ha.
    rewrite to_scan_cons in Hfresh |- *.
    destruct (is_start start_pc depth s).
    { injection Ha as <- <-. apply (IH _ _ _ H).
      by apply (fresh_sites_same_table depth st). }
    destruct (is_end start_pc depth s).
    { injection Ha as <- <-. inv_ok H. apply (Hnil (close_window st (s_gas s))). }
    destruct (monitor st) eqn:Hm; simpl in *.
    2:{ injection Ha as <- <-. specialize (IH _ _ _ H). rewrite Hm in IH. by apply IH. }
    destruct (Z.eqb_spec (s_depth s) (depth + 1)) as [Hd|Hd].
    2:{ injection Ha as <- <-. specialize (IH _ _ _ H). rewrite Hm in IH. by apply IH. }
    destruct (is_call s) eqn:Hc.
    + injection Ha as <- <-.
      destruct (open_frame_accounting _ _ _ _ Hfresh Hc Hd) as [Hfresh' _].
      specialize (IH _ _ _ H). simpl in IH. rewrite Hm in IH.
      destruct (IH Hfresh') as [IHA IHB]. clear IH.
      rewrite Hd in IHA.
      destruct Hfresh as (Hok & _ & _ & _ & Hfr).
      assert (Hk : (s_pc s, depth + 1) ∉ keys (call_stack st)).
      { apply Hfr. rewrite call_sites_cons, Hc. by left. }
      split.
      * intros k ci Hget.
        assert (k ≠ (s_pc s, depth + 1)) as Hne.
        { intros ->. apply Hk. by eapply dict_get_Some_keys. }
        rewrite (IHA k ci) by (by rewrite dict_get_set, decide_False).
        rewrite settle_skip_call by done. f_equal.
        repeat case_decide; try done.
        -- exfalso. apply elem_of_app in H0 as [?|Hin]; [done|].
           by apply list_elem_of_singleton in Hin.
        -- exfalso. apply H0, elem_of_app. by left.
      * intros F1 c F2 HF Hc'. destruct F1 as [|s0 F1]; simpl in HF.
        -- injection HF as <- <-.
           rewrite (IHA (s_pc s, depth + 1) (new_call (s_pc s) (depth + 1) (s_gas s) (s_op s)))
             by (by rewrite dict_get_set, decide_True).
           rewrite decide_True; [done|].
           apply elem_of_app. right. by apply list_elem_of_singleton.
        -- injection HF as <- HF. by eapply IHB.
    + inv_ok Ha. rewrite Hd in Ha0.
      pose proof Ha0 as Hloop. rewrite <- Hd in Hloop.
      destruct (opcode_accounting _ _ _ _ _ _ Hfresh Hc Hd Hloop) as [Hfresh' _].
      specialize (IH _ _ _ H). simpl in IH. rewrite Hm in IH.
      destruct (IH Hfresh') as [IHA IHB]. clear IH.
      destruct Hfresh as (Hok & Hnd & _ & _ & _).
      split.
      2:{ intros F1 c F2 HF Hc'. destruct F1 as [|s0 F1]; simpl in HF.
          - injection HF as <- <-. congruence.
          - injection HF as <- HF. by eapply IHB. }
      intros k ci Hget.
      assert (Honly : ∀ k, k ∈ active_calls st → s_pc s = k.1 + 1 →
                           k = (s_pc s - 1, depth + 1)).
      { intros k' Hin Hpc. eapply matching_keys_equal; [exact Hok | done | lia]. }
      destruct (return_loop_distinct depth st s _ _ Hok Hnd Ha0)
        as [(HK & ciK & cs1 & Hpop & -> & Hrem)|(HK & -> & ->)].
      * destruct (list_remove_NoDup _ _ _ Hrem Hnd) as [HKnin _].
        destruct (decide (k = (s_pc s - 1, depth + 1))) as [->|Hne].
        -- pose proof (dict_pop_Ok _ _ _ _ Hpop) as (HgetK & _ & _).
           rewrite Hget in HgetK. injection HgetK as <-.
           rewrite (IHA _ (finalize ci (s_gas s) (s_pc s) (depth + 1)))
             by (by rewrite dict_get_set, decide_True).
           rewrite decide_False by done. rewrite decide_True by done.
           rewrite settle_hit; [done | done | simpl; lia].
        -- rewrite (IHA k ci).
           2:{ by rewrite (dict_finalize_other _ _ _ _ _ _ Hpop Hne). }
           pose proof (list_remove_other _ k _ _ Hrem Hne) as Hiff.
           f_equal. repeat case_decide; try tauto.
           rewrite settle_skip_other; [done|].
           intros Hpc. by apply Hne, Honly.
      * rewrite (IHA k ci Hget). f_equal. case_decide; [|done].
        rewrite settle_skip_other; [done|].
        intros Hpc. apply HK. by rewrite <- (Honly k H0 Hpc).
Qed.

(** ** The trace source, on any document *)

Lemma get_struct_logs_cases data :
  match get_struct_logs_from_file data with
  | Ok v =>
      nested_field data = Ok v
      ∨ (¬ present (nested_field data) ∧ direct_field data = Ok v)
  | Raise e =>
      (e = KeyError not_found
       ∧ ¬ present (nested_field data) ∧ ¬ present (direct_field data))
      ∨ e = TypeError
  end.
Proof.
  assert (Hno : ∀ e, ¬ present (Raise e)) by (by intros e [v ?]).
  unfold get_struct_logs_from_file, nested_field, direct_field.
  destruct data as [| | |s|l|d]; simpl; try by right.
  - destruct (contains "result" s); simpl; [by right|].
    destruct (contains "structLogs" s); simpl; [by right|].
    left. split_and!; [done | apply Hno | apply Hno].
  - repeat (match goal with |- context [existsb ?f l] => destruct (existsb f l) end;
            simpl); try by right.
    left. split_and!; [done | apply Hno | apply Hno].
  - destruct (json_lookup "result" d) as [r|]; simpl.
    + destruct r as [| | |s'|l'|d']; simpl; try by right.
      * destruct (contains "structLogs" s'); simpl; [by right|].
        destruct (json_lookup "structLogs" d); simpl; [right; split; [apply Hno | done]|].
        left. split_and!; [done | apply Hno | apply Hno].
      * match goal with |- context [existsb ?f l'] => destruct (existsb f l') end; simpl; [by right|].
        destruct (json_lookup "structLogs" d); simpl; [right; split; [apply Hno | done]|].
        left. split_and!; [done | apply Hno | apply Hno].
      * destruct (json_lookup "structLogs" d'); simpl; [by left|].
        destruct (json_lookup "structLogs" d); simpl; [right; split; [apply Hno | done]|].
        left. split_and!; [done | apply Hno | apply Hno].
    + destruct (json_lookup "structLogs" d); simpl; [right; split; [apply Hno | done]|].
      left. split_and!; [done | apply Hno | apply Hno].
Qed.

(** ** The last transaction *)

Section LastTransactionFacts.
Context {hash : Type} (hash_leb : hash → hash → bool).
Hypothesis hash_leb_total : ∀ x y, hash_leb x y = true ∨ hash_leb y x = true.
Hypothesis hash_leb_trans :
  ∀ x y z, hash_leb x y = true → hash_leb y z = true → hash_leb x z = true.
Hypothesis hash_leb_antisym :
  ∀ x y, hash_leb x y = true → hash_leb y x = true → x = y.

Lemma key_le_total : Total (key_le hash_leb).
Proof.
  intros [b1 h1] [b2 h2]. unfold key_le. simpl.
  destruct (Z.lt_trichotomy b1 b2) as [?|[->|?]]; [by left; left | | by right; left].
  destruct (hash_leb_total h1 h2); [left | right]; by right.
Qed.

Lemma key_le_trans : Transitive (key_le hash_leb).
Proof.
  intros [b1 h1] [b2 h2] [b3 h3]. unfold key_le. simpl.
  intros [?|[-> ?]] [?|[-> ?]]; [left; lia | by left | by left |].
  right. split; [done | by eapply hash_leb_trans].
Qed.

Lemma key_le_antisym : AntiSymm (=) (key_le hash_leb).
Proof.
  intros [b1 h1] [b2 h2]. unfold key_le. simpl.
  intros [?|[-> ?]] [?|[? ?]]; try lia.
  f_equal. by apply hash_leb_antisym.
Qed.

(** The last element of a sorted list is above all its elements. *)
Lemma last_of_sorted l e :
  StronglySorted (key_le hash_leb) l → last l = Some e →
  ∀ x, x ∈ l → key_le hash_leb x e.
Proof.
  induction 1 as [|x l Hs IH Hall]; [done|].
  rewrite last_cons. intros Hlast y Hy.
  destruct (last l) as [e'|] eqn:Hl.
  - injection Hlast as ->. apply elem_of_cons in Hy as [->|Hy]; [|by apply IH].
    rewrite Forall_forall in Hall. apply Hall.
    by eapply last_Some_elem_of.
  - injection Hlast as ->. apply last_None in Hl as ->.
    apply elem_of_cons in Hy as [->|Hy]; [|by apply elem_of_nil in Hy].
    by destruct (key_le_total e e).
Qed.

Lemma get_last_transaction_hash_max details :
  details ≠ [] →
  ∃ e, last (merge_sort (key_le hash_leb) details) = Some e
     ∧ get_last_transaction_hash hash_leb details = Some e.2
     ∧ e ∈ details
     ∧ ∀ x, x ∈ details → key_le hash_leb x e.
Proof.
  intros Hne.
  pose proof (merge_sort_Permutation (key_le hash_leb) details) as Hperm.
  destruct (last (merge_sort (key_le hash_leb) details)) as [e|] eqn:Hl.
  2:{ apply last_None in Hl. rewrite Hl in Hperm.
      by apply Permutation_nil_l in Hperm. }
  exists e. split_and!; [done | | |].
  - destruct details; [done|]. simpl. by rewrite Hl.
  - rewrite <- Hperm. by eapply last_Some_elem_of.
  - intros x Hx. eapply last_of_sorted; [|done|by rewrite Hperm].
    apply (@StronglySorted_merge_sort _ _ _ key_le_trans key_le_total).
Qed.

Lemma get_last_transaction_hash_perm l1 l2 :
  l1 ≡ₚ l2 →
  get_last_transaction_hash hash_leb l1 = get_last_transaction_hash hash_leb l2.
Proof.
  intros Hperm.
  assert (merge_sort (key_le hash_leb) l1 = merge_sort (key_le hash_leb) l2) as Heq.
  { apply (@Sorted_unique _ _ key_le_trans key_le_antisym).
    - apply (@Sorted_merge_sort _ _ _ key_le_total).
    - apply (@Sorted_merge_sort _ _ _ key_le_total).
    - by rewrite !merge_sort_Permutation. }
  destruct l1 as [|x1 l1], l2 as [|x2 l2]; simpl; [done | | |by rewrite Heq].
  - by apply Permutation_nil_l in Hperm.
  - by apply Permutation_nil_r in Hperm.
Qed.
End LastTransactionFacts.

(** ** Iterating over the active keys while removing from them *)

Lemma list_remove_replicate (K : key) m :
  list_remove K (replicate (S m) K) = Ok (replicate m K).
Proof. simpl. by rewrite decide_True. Qed.

(** On [m] copies of one matching key, the iterator at index [i] leaves
    half of [m + i] copies: every removal shifts the next copy under the
    index, and it is skipped. *)
Lemma return_loop_replicate depth l current_depth g (K : key) (h : nat) :
  log_gas l = Some g →
  ∀ fuel i m cs,
    table_ok depth cs (replicate m K) →
    (m ≤ fuel + i)%nat → (i ≤ S m)%nat →
    (2 * h ≤ m + i < 2 * h + 2)%nat →
    ∃ cs', return_loop fuel i l (K.1 + 1) current_depth cs (replicate m K)
           = Ok (cs', replicate h K).
Proof.
  intros Hg.
  induction fuel as [|fuel IH]; intros i m cs Htab Hlen Hi Hh; simpl.
  - rewrite (proj1 (lookup_replicate_None m K i)) by lia.
    assert (h = m) as -> by lia. eauto.
  - destruct (decide (i < m)%nat) as [Hlt|Hge].
    2:{ rewrite (proj1 (lookup_replicate_None m K i)) by lia.
        assert (h = m) as -> by lia. eauto. }
    rewrite lookup_replicate_2 by done.
    destruct K as [cp cd]. simpl. rewrite Z.eqb_refl.
    destruct m as [|m]; [lia|].
    destruct (dict_pop_total (cp, cd) cs) as (ci & cs1 & Hpop).
    { apply Htab. by left. }
    rewrite Hpop, Hg. simpl. rewrite decide_True by done. simpl.
    apply (IH (S i) m); [|lia|lia|lia].
    eapply table_ok_finalize; [exact Htab | exact Hpop | apply list_remove_replicate].
Qed.

(** ** A start marker inside the window *)

Lemma loop_body_same_but_gas_start start_pc depth st1 st2 l :
  same_but_gas_start st1 st2 →
  match loop_body start_pc depth st1 l, loop_body start_pc depth st2 l with
  | Ok (f1, st1'), Ok (f2, st2') => f1 = f2 ∧ same_but_gas_start st1' st2'
  | Raise e1, Raise e2 => e1 = e2
  | _, _ => False
  end.
Proof.
  destruct st1 as [cs1 a1 s1 gs1 ge1 m1], st2 as [cs2 a2 s2 gs2 ge2 m2].
  unfold same_but_gas_start. simpl. intros (-> & -> & -> & -> & ->).
  unfold loop_body, open_window, close_window, open_frame, after_opcode. simpl.
  destruct (at_marker start_pc depth l) as [[|]|]; simpl; [| |done].
  { destruct (log_op l), (log_gas l); simpl; done. }
  destruct (at_marker (start_pc + 1) depth l) as [[|]|]; simpl; [| |done].
  { destruct (log_op l), (log_gas l); simpl; done. }
  destruct m2; [|done].
  destruct (log_depth l) as [d|]; simpl; [|done].
  destruct (log_pc l) as [p|]; simpl; [|done].
  destruct (negb (d =? depth + 1)); [done|].
  destruct (log_op l) as [o|]; simpl; [|done].
  destruct (in_stack_increasers o).
  { destruct (log_gas l); simpl; done. }
  destruct (log_gasCost l); simpl; [|done].
  destruct (return_loop (length a2) 0 l p d cs2 a2) as [[cs' a']|]; simpl; done.
Qed.

Lemma for_logs_same_but_gas_start start_pc depth logs :
  ∀ st1 st2,
    same_but_gas_start st1 st2 →
    match for_logs start_pc depth st1 logs, for_logs start_pc depth st2 logs with
    | Ok (f1, st1'), Ok (f2, st2') => f1 = f2 ∧ same_but_gas_start st1' st2'
    | Raise e1, Raise e2 => e1 = e2
    | _, _ => False
    end.
Proof.
  induction logs as [|l logs IH]; simpl; intros st1 st2 Hsame; [done|].
  pose proof (loop_body_same_but_gas_start start_pc depth st1 st2 l Hsame) as Hb.
  destruct (loop_body start_pc depth st1 l) as [[f1 st1']|e1],
           (loop_body start_pc depth st2 l) as [[f2 st2']|e2]; simpl; try done.
  destruct Hb as [<- Hsame']. destruct f1; [by apply IH | done].
Qed.

(** * The claims *)

(** C2: on the literal five-step trace, analysed with start_pc = 10 and
    depth = 1, the result has gas_sum = 40, gas_start = 500, gas_end = 440
    and exactly one frame, keyed (21, 2), finalized with gas_used = 37; the
    report derives total gas used = 60 and non-execution gas = 20. *)
Theorem literal_trace_result :
  ∃ r, parse_struct_logs trace_C2 10 1 = Ok r
    ∧ res_gas_sum r = 40 ∧ res_gas_start r = 500 ∧ res_gas_end r = 440
    ∧ res_call_stack r = [((21, 2), frame_C2)]
    ∧ gas_used frame_C2 = Some 37
    ∧ gas_total r = 60 ∧ non_execution_gas r = 20
    ∧ print_results r =
        Ok [ "> Execution gas used: 40";
             "> Total gas used: 60 (500 - 440)";
             "> Non Execution gas used: 20";
             "Call stack details:";
             "  Call at PC 21, depth 2: CALL";
             "    Gas used: 37";
             "    Returned at PC 22, depth 2" ].
Proof. eexists. split; [reflexivity|]. repeat split. Qed.

(** C3, as the code has it: on a trace with no step at (start_pc, depth)
    the analysis raises nothing and returns gas_sum = 0, gas_start = 0 and
    an empty frame set; gas_end is the remaining gas of the first step at
    (start_pc + 1, depth), and 0 only when there is no such step. *)
Theorem no_start_marker_result (t : list step) (start_pc depth : Z) :
  Forall (λ s, is_start start_pc depth s = false) t →
  parse_struct_logs (encode t) start_pc depth =
    Ok {| res_gas_sum := 0; res_gas_start := 0;
          res_gas_end := from_option s_gas 0 (List.find (is_end start_pc depth) t);
          res_call_stack := [] |}.
Proof.
  intros Hns. unfold parse_struct_logs.
  rewrite (for_logs_no_start _ _ _ Hns).
  by destruct (List.find (is_end start_pc depth) t).
Qed.

Lemma no_start_marker_result_witness :
  Forall (λ s, is_start 10 1 s = false) trace_end_only
  ∧ parse_struct_logs (encode trace_end_only) 10 1 =
      Ok {| res_gas_sum := 0; res_gas_start := 0; res_gas_end := 440;
            res_call_stack := [] |}.
Proof.
  split; [repeat constructor|].
  apply (no_start_marker_result trace_end_only 10 1). repeat constructor.
Defined.

(** C3 as stated fails: [trace_end_only] has no step at (10, 1), yet the
    step at (11, 1) sets gas_end to 440. *)
Lemma no_start_marker_gas_end_set :
  Forall (λ s, ¬ (s_pc s = 10 ∧ s_depth s = 1)) trace_end_only
  ∧ ∃ r, parse_struct_logs (encode trace_end_only) 10 1 = Ok r
       ∧ res_gas_end r = 440 ∧ res_gas_end r ≠ 0.
Proof.
  split.
  - repeat constructor; simpl; intros [? ?]; lia.
  - eexists. split; [reflexivity|]. simpl. split; [done | lia].
Qed.

(** C4, as the code has it: every step at (start_pc, depth) that the scan
    reaches overwrites gas_start, so the reported gas_start is the
    remaining gas of the last such step in front of the first step at
    (start_pc + 1, depth), and 0 when there is none. *)
Theorem gas_start_last_start_seen (t : list step) (start_pc depth : Z) :
  ∃ r, parse_struct_logs (encode t) start_pc depth = Ok r
    ∧ res_gas_start r =
        from_option s_gas 0 (last (starts_seen start_pc depth t)).
Proof.
  unfold parse_struct_logs.
  destruct (for_logs_total start_pc depth t init (init_ok depth)) as (f & st & H).
  rewrite H. simpl. eexists. split; [done|]. simpl.
  by apply for_logs_gas_start in H.
Qed.

(** C4 as stated fails: the first step of [trace_restart] at (10, 1) has
    500 gas left, but the second one overwrites gas_start with 480 (and
    the third, behind the end marker, is never read). *)
Lemma gas_start_not_first :
  List.find (is_start 10 1) trace_restart = Some (Step 10 1 "JUMPDEST" 500 1)
  ∧ ∃ r, parse_struct_logs (encode trace_restart) 10 1 = Ok r
       ∧ res_gas_start r = 480 ∧ res_gas_start r ≠ 500.
Proof.
  split; [reflexivity|].
  eexists. split; [reflexivity|]. simpl. split; [done | lia].
Qed.

(** C5, as the code has it: when the trace has a step at
    (start_pc, depth), no step at (start_pc + 1, depth) after it and none
    in front of it either, the scan reads the trace to its end with the
    window open, and the result has gas_end = 0, so that the total gas
    figure of the report is gas_start - 0. *)
Theorem unterminated_window_gas_end
    (pre : list step) (s : step) (post : list step) (start_pc depth : Z) :
  Forall (λ s, is_end start_pc depth s = false) pre →
  is_start start_pc depth s = true →
  Forall (λ s, is_end start_pc depth s = false) post →
  ∃ st r,
    for_logs start_pc depth init (encode (pre ++ s :: post)) = Ok (Next, st)
    ∧ monitor st = true
    ∧ parse_struct_logs (encode (pre ++ s :: post)) start_pc depth = Ok r
    ∧ res_gas_end r = 0
    ∧ gas_total r = res_gas_start r - 0.
Proof.
  intros Hpre Hs Hpost.
  destruct (for_logs_no_end _ _ _ Hpre init (init_ok depth)) as (st0 & H0).
  assert (Hok0 : state_ok depth st0).
  { eapply for_logs_state_ok; [exact H0 | apply init_ok]. }
  destruct (for_logs_no_end _ _ _ Hpost (open_window st0 (s_gas s)) Hok0)
    as (st & Hst).
  assert (Hall : for_logs start_pc depth init (encode (pre ++ s :: post))
                 = Ok (Next, st)).
  { unfold encode. rewrite fmap_app, for_logs_app. fold (encode pre).
    rewrite H0. simpl. rewrite loop_body_step, Hs. simpl. exact Hst. }
  apply for_logs_next in H0 as [Hge0 _].
  apply for_logs_next in Hst as [Hge Hm].
  unfold parse_struct_logs, gas_total. rewrite Hall. simpl.
  eexists _, _. split_and!; simpl; [done | by apply Hm | done | | ].
  - rewrite Hge. simpl. rewrite Hge0. done.
  - rewrite Hge. simpl. rewrite Hge0. done.
Qed.

Lemma unterminated_window_gas_end_witness :
  Forall (λ s, is_end 10 1 s = false) [Step 9 1 "PUSH1" 503 3]
  ∧ is_start 10 1 (Step 10 1 "JUMPDEST" 500 1) = true
  ∧ Forall (λ s, is_end 10 1 s = false)
      (Step 21 2 "CALL" 487 0 :: trace_open_post)
  ∧ ∃ st r,
      for_logs 10 1 init
        (encode ([Step 9 1 "PUSH1" 503 3]
                 ++ Step 10 1 "JUMPDEST" 500 1
                 :: Step 21 2 "CALL" 487 0 :: trace_open_post))
      = Ok (Next, st)
      ∧ monitor st = true
      ∧ parse_struct_logs
          (encode ([Step 9 1 "PUSH1" 503 3]
                   ++ Step 10 1 "JUMPDEST" 500 1
                   :: Step 21 2 "CALL" 487 0 :: trace_open_post)) 10 1 = Ok r
      ∧ res_gas_end r = 0
      ∧ gas_total r = res_gas_start r - 0.
Proof.
  assert (Hpre : Forall (λ s, is_end 10 1 s = false) [Step 9 1 "PUSH1" 503 3]).
  { repeat constructor. }
  assert (Hs : is_start 10 1 (Step 10 1 "JUMPDEST" 500 1) = true) by reflexivity.
  assert (Hpost : Forall (λ s, is_end 10 1 s = false)
                    (Step 21 2 "CALL" 487 0 :: trace_open_post)).
  { repeat constructor. }
  split; [exact Hpre|]. split; [exact Hs|]. split; [exact Hpost|].
  exact (unterminated_window_gas_end _ _ _ 10 1 Hpre Hs Hpost).
Defined.

(** C5 as stated fails: [trace_end_first] has a step at (10, 1), its
    second, and no step at (11, 1) after it; yet its first step is at
    (11, 1) and ends the scan (line 60) before the step at (10, 1) is
    read: the window never opens, the scan leaves the loop by [break],
    and the result has gas_end = 440, so that the total gas figure is
    not gas_start - 0. *)
Lemma end_marker_before_window :
  trace_end_first
  = [Step 11 1 "JUMPDEST" 440 1]
    ++ Step 10 1 "JUMPDEST" 500 1 :: [Step 20 2 "ADD" 490 3]
  ∧ is_start 10 1 (Step 10 1 "JUMPDEST" 500 1) = true
  ∧ Forall (λ s, is_end 10 1 s = false) [Step 20 2 "ADD" 490 3]
  ∧ (∃ st, for_logs 10 1 init (encode trace_end_first) = Ok (Break, st)
           ∧ monitor st = false)
  ∧ ∃ r, parse_struct_logs (encode trace_end_first) 10 1 = Ok r
       ∧ res_gas_end r = 440
       ∧ res_gas_end r ≠ 0
       ∧ gas_total r ≠ res_gas_start r - 0.
Proof.
  split; [reflexivity|]. split; [reflexivity|].
  split; [repeat constructor|].
  split; [eexists; split; reflexivity|].
  eexists. split; [reflexivity|]. split; [reflexivity|].
  split; vm_compute; discriminate.
Qed.

(** C8: the scan stops at a step at (start_pc + 1, depth): whatever steps
    follow that step, every field of the result is the same as if the
    trace ended there. *)
Theorem scan_stops_at_end_marker (pre post : list log) (m : log) (start_pc depth : Z) :
  log_pc m = Some (start_pc + 1) →
  log_depth m = Some depth →
  parse_struct_logs (pre ++ m :: post) start_pc depth =
    parse_struct_logs (pre ++ [m]) start_pc depth
  ∧ ∀ f st, for_logs start_pc depth init (pre ++ m :: post) = Ok (f, st) → f = Break.
Proof.
  intros Hpc Hd.
  assert (Heq : for_logs start_pc depth init (pre ++ m :: post) =
                for_logs start_pc depth init (pre ++ [m])).
  { rewrite !for_logs_app.
    destruct (for_logs start_pc depth init pre) as [[[|] st1]|e]; simpl; try done.
    by apply for_logs_end. }
  split.
  - unfold parse_struct_logs. by rewrite Heq.
  - intros f st. rewrite for_logs_app. intros H. inv_ok H.
    destruct f0; [|by inv_ok H].
    by apply (for_logs_end _ _ _ _ _ Hpc Hd) in H.
Qed.

Lemma scan_stops_at_end_marker_witness :
  log_pc (log_of_step (Step 11 1 "JUMPDEST" 440 0)) = Some (10 + 1)
  ∧ log_depth (log_of_step (Step 11 1 "JUMPDEST" 440 0)) = Some 1
  ∧ parse_struct_logs
    (encode trace_open_pre ++ log_of_step (Step 11 1 "JUMPDEST" 440 0)
       :: encode trace_open_post) 10 1 =
  parse_struct_logs
    (encode trace_open_pre ++ [log_of_step (Step 11 1 "JUMPDEST" 440 0)]) 10 1.
Proof.
  split; [reflexivity|]. split; [reflexivity|].
  apply (scan_stops_at_end_marker (encode trace_open_pre) (encode trace_open_post)
           (log_of_step (Step 11 1 "JUMPDEST" 440 0)) 10 1); reflexivity.
Defined.




(** C7, as the code has it: at every point of the scan the frame table
    holds one descriptor per key, every key is at depth + 1, and every
    active key has its descriptor in the table.  The list of active keys
    is not kept free of duplicates: a call-family step at a key that is
    still active is accepted, replaces the descriptor of that key and
    appends the key to the list once more. *)
Theorem frame_table_invariant
    (logs : list log) (start_pc depth : Z) (f : flow) (st : state) :
  for_logs start_pc depth init logs = Ok (f, st) →
  NoDup (keys (call_stack st))
  ∧ (∀ k, k ∈ keys (call_stack st) → k.2 = depth + 1)
  ∧ (∀ k, k ∈ active_calls st → k ∈ keys (call_stack st))
  ∧ (∀ p o g c,
       monitor st = true → in_stack_increasers o = true →
       (p, depth + 1) ∈ active_calls st →
       ∃ st', loop_body start_pc depth st
                (Log (Some p) (Some (depth + 1)) (Some o) (Some g) c) = Ok (Next, st')
              ∧ dict_get (p, depth + 1) (call_stack st')
                = Some (new_call p (depth + 1) g o)
              ∧ active_calls st' = active_calls st ++ [(p, depth + 1)]
              ∧ ¬ NoDup (active_calls st')).
Proof.
  intros Hreach.
  destruct (for_logs_state_ok _ _ _ _ _ _ Hreach (init_ok depth)) as (Hnd & Hd & Ha).
  split_and!; try done.
  intros p o g c Hm Ho Hin. eexists. split; [by apply loop_body_call|].
  simpl. split_and!; [|done|].
  - by rewrite dict_get_set, decide_True.
  - intros Hnd'. apply NoDup_app in Hnd' as (_ & Hdisj & _).
    apply (Hdisj _ Hin). by left.
Qed.

Lemma frame_table_invariant_witness :
  ∃ st, for_logs 10 1 init (encode trace_reopen) = Ok (Next, st)
      ∧ NoDup (keys (call_stack st))
      ∧ (∀ k, k ∈ active_calls st → k ∈ keys (call_stack st)).
Proof.
  eexists. split; [reflexivity|].
  pose proof (frame_table_invariant (encode trace_reopen) 10 1 Next _ eq_refl)
    as (Hnd & _ & Hact & _).
  split; [exact Hnd | exact Hact].
Defined.

(** C7 as stated fails: in [trace_reopen] the call site (21, 2) is passed
    a second time while its frame is still active, and the key is then
    twice among the active keys. *)
Lemma active_key_listed_twice :
  ∃ st, for_logs 10 1 init (encode trace_reopen) = Ok (Next, st)
      ∧ active_calls st = [(21, 2); (21, 2)]
      ∧ ¬ NoDup (active_calls st).
Proof.
  eexists. split; [reflexivity|]. simpl. split; [done|].
  intros Hnd. apply NoDup_cons in Hnd as [Hnin _]. apply Hnin. by left.
Qed.

(** C9: while monitoring, a call-family step at depth + 1 only opens a
    frame: the gas sum is unchanged, the key is appended to the active
    keys, and no frame is finalized by it, whatever its program counter.
    A frame gets finalized only by a step at depth + 1 that is not a
    call-family step and sits at the program counter after its call site. *)
Theorem call_step_only_opens
    (start_pc depth : Z) (st : state) (p : Z) (o : string) (g : Z) (c : option Z) :
  monitor st = true → in_stack_increasers o = true →
  let l := Log (Some p) (Some (depth + 1)) (Some o) (Some g) c in
  let st' := open_frame st p (depth + 1) g o in
  loop_body start_pc depth st l = Ok (Next, st')
  ∧ gas_sum st' = gas_sum st
  ∧ active_calls st' = active_calls st ++ [(p, depth + 1)]
  ∧ (∀ k, finalized k (call_stack st') → finalized k (call_stack st))
  ∧ (∀ k l2 f st2,
       loop_body start_pc depth st' l2 = Ok (f, st2) →
       ¬ finalized k (call_stack st') → finalized k (call_stack st2) →
       log_depth l2 = Some (depth + 1)
       ∧ ∃ o2, log_op l2 = Some o2 ∧ in_stack_increasers o2 = false
               ∧ log_pc l2 = Some (k.1 + 1)).
Proof.
  intros Hm Ho l st'. split_and!; try done.
  - by apply loop_body_call.
  - intros k. apply not_finalized_new_call.
  - intros k l2 f st2 Hbody Hno Hfin.
    by destruct (body_case_finalizes _ _ _ _ _ _ k (loop_body_inv _ _ _ _ _ _ Hbody)
                   Hno Hfin) as (_ & ? & ?).
Qed.

Lemma call_step_only_opens_witness :
  ∃ st, for_logs 10 1 init (encode trace_open_pre) = Ok (Next, st)
      ∧ monitor st = true
      ∧ in_stack_increasers "DELEGATECALL" = true
      ∧ loop_body 10 1 st (Log (Some 22) (Some (1 + 1)) (Some "DELEGATECALL") (Some 450) None)
        = Ok (Next, open_frame st 22 (1 + 1) 450 "DELEGATECALL")
      ∧ ¬ finalized (21, 2) (call_stack (open_frame st 22 (1 + 1) 450 "DELEGATECALL")).
Proof.
  eexists. split; [reflexivity|]. split; [reflexivity|]. split; [reflexivity|].
  pose proof (call_step_only_opens 10 1
                {| call_stack := [((21, 2), new_call 21 2 487 "CALL")];
                   active_calls := [(21, 2)];
                   gas_sum := 0; gas_start := 500; gas_end := 0; monitor := true |}
                22 "DELEGATECALL" 450 None eq_refl eq_refl)
    as (Hbody & _ & _ & Hfin & _).
  split; [exact Hbody|].
  intros H. apply Hfin in H as (ci & Hget & Hsome).
  injection Hget as <-. by destruct Hsome.
Defined.

(** C1: the gas of a frame opened and closed inside the window is lost
    when its call site is passed again.  In [trace_loop_twice] the call
    site (21, 2) is passed twice and each call returns at program counter
    22 inside the window, with 487 - 450 = 37 and 400 - 366 = 34 gas
    used, so that 71 is due for the two frames and nothing for the other
    steps.  The second pass replaces the finalized descriptor of the
    first (line 80), the result holds the one frame of the second call,
    and lines 99-102 add its 34 only: the reported gas sum is 34. *)
Theorem loop_drops_completed_gas :
  opcode_gas (child_steps 10 1 trace_loop_twice) = 0
  ∧ completed_gas (child_steps 10 1 trace_loop_twice) = 71
  ∧ ∃ r ci,
      parse_struct_logs (encode trace_loop_twice) 10 1 = Ok r
      ∧ res_call_stack r = [((21, 2), ci)]
      ∧ gas_at_call ci = 400
      ∧ gas_used ci = Some 34
      ∧ res_gas_sum r = 34
      ∧ res_gas_sum r ≠ opcode_gas (child_steps 10 1 trace_loop_twice)
                        + completed_gas (child_steps 10 1 trace_loop_twice).
Proof.
  split; [reflexivity|]. split; [reflexivity|].
  eexists _, _. split; [reflexivity|]. split; [reflexivity|].
  split; [reflexivity|]. split; [reflexivity|]. split; [reflexivity|].
  vm_compute. discriminate.
Qed.

(** The same loss when the second frame is left open: in [trace_loop] the
    frame opened at (21, 2) with 487 gas is closed at program counter 22
    with 450 gas left, inside the window, so 37 is due; the second call
    at the same site replaces its descriptor, and the reported gas sum
    is 0. *)
Lemma completed_frame_gas_lost :
  opcode_gas (child_steps 10 1 trace_loop) = 0
  ∧ completed_gas (child_steps 10 1 trace_loop) = 37
  ∧ ∃ r, parse_struct_logs (encode trace_loop) 10 1 = Ok r
       ∧ res_gas_sum r = 0
       ∧ res_gas_sum r ≠ opcode_gas (child_steps 10 1 trace_loop)
                         + completed_gas (child_steps 10 1 trace_loop).
Proof.
  split; [reflexivity|]. split; [reflexivity|].
  eexists. split; [reflexivity|]. split; [reflexivity|].
  vm_compute. discriminate.
Qed.

(** C10, as the code has it: for a document that is an object whose
    "result" member, if any, is an object, the extraction returns
    data['result']['structLogs'] when that field is present, otherwise
    data['structLogs'] when present, and raises KeyError exactly when
    neither field is present. *)
Theorem struct_logs_extraction (data : json) :
  object_shaped data →
  (∀ v, nested_field data = Ok v → get_struct_logs_from_file data = Ok v)
  ∧ (∀ v, ¬ present (nested_field data) → direct_field data = Ok v →
          get_struct_logs_from_file data = Ok v)
  ∧ (get_struct_logs_from_file data = Raise (KeyError not_found)
     ↔ ¬ present (nested_field data) ∧ ¬ present (direct_field data))
  ∧ (∀ e, get_struct_logs_from_file data = Raise e → e = KeyError not_found).
Proof.
  destruct data as [| | | | |d]; try done.
  intros Hshape. rewrite (get_struct_logs_object d Hshape).
  unfold nested_field, direct_field, present, object_shaped in *. simpl in *.
  destruct (json_lookup "result" d) as [[| | | | |r]|]; simpl in *; try done.
  - destruct (json_lookup "structLogs" r) as [v1|]; simpl.
    + split_and!; [done | by intros v []; eauto | | done].
      split; [done | by intros [[] _]; eauto].
    + destruct (json_lookup "structLogs" d) as [v2|]; simpl.
      * split_and!; [done | done | | done].
        split; [done | by intros [_ []]; eauto].
      * split_and!; [done | done | | by intros e [= <-]].
        split; [|done]. intros _. split; by intros [? ?].
  - destruct (json_lookup "structLogs" d) as [v2|]; simpl.
    + split_and!; [done | done | | done].
      split; [done | by intros [_ []]; eauto].
    + split_and!; [done | done | | by intros e [= <-]].
      split; [|done]. intros _. split; by intros [? ?].
Qed.

Lemma struct_logs_extraction_witness :
  object_shaped doc_nested
  ∧ get_struct_logs_from_file doc_nested = Ok (JList [JInt 1]).
Proof.
  split; [exact I|].
  destruct (struct_logs_extraction doc_nested I) as (Hnested & _).
  apply Hnested. reflexivity.
Defined.

(** C10 as stated fails: in [doc_null_result] the nested field is absent
    and data['structLogs'] is present, yet the membership test on the
    [null] under "result" raises TypeError: neither the top-level sequence
    is returned nor a KeyError raised. *)
Lemma null_result_type_error :
  ¬ present (nested_field doc_null_result)
  ∧ direct_field doc_null_result = Ok (JList [])
  ∧ get_struct_logs_from_file doc_null_result = Raise TypeError.
Proof.
  split; [|split; reflexivity].
  intros [v Hv]. discriminate Hv.
Qed.

(** * Further properties of the analysis *)

(** X1: for every trace the analysis returns, and the reported gas_end is
    the remaining gas of the first step at (start_pc + 1, depth), whether
    or not the window was open when it came, and 0 when there is no such
    step. *)
Theorem gas_end_first_end_marker (t : list step) (start_pc depth : Z) :
  ∃ r, parse_struct_logs (encode t) start_pc depth = Ok r
    ∧ res_gas_end r =
        from_option s_gas 0 (List.find (is_end start_pc depth) t).
Proof.
  unfold parse_struct_logs.
  destruct (for_logs_total start_pc depth t init (init_ok depth)) as (f & st & H).
  rewrite H. simpl. eexists. split; [done|]. simpl.
  by apply for_logs_gas_end in H as [-> _].
Qed.

(** X2: steps in front of the first start marker that are not at
    (start_pc + 1, depth) are passed over: the result is that of the
    trace without them. *)
Theorem steps_before_window_ignored (pre t : list step) (start_pc depth : Z) :
  Forall (λ s, is_start start_pc depth s = false ∧ is_end start_pc depth s = false) pre →
  parse_struct_logs (encode (pre ++ t)) start_pc depth =
    parse_struct_logs (encode t) start_pc depth.
Proof.
  intros Hpre. unfold parse_struct_logs, encode.
  rewrite fmap_app, for_logs_app. fold (encode pre).
  by rewrite (for_logs_before_window _ _ _ Hpre init eq_refl).
Qed.

Lemma steps_before_window_ignored_witness :
  Forall (λ s, is_start 10 1 s = false ∧ is_end 10 1 s = false)
    [ Step 7 1 "PUSH1" 520 3; Step 30 2 "CALL" 510 0 ]
  ∧ parse_struct_logs
      (encode ([ Step 7 1 "PUSH1" 520 3; Step 30 2 "CALL" 510 0 ] ++ trace_call_return)) 10 1 =
    parse_struct_logs (encode trace_call_return) 10 1.
Proof.
  assert (H : Forall (λ s, is_start 10 1 s = false ∧ is_end 10 1 s = false)
                [ Step 7 1 "PUSH1" 520 3; Step 30 2 "CALL" 510 0 ]).
  { repeat constructor. }
  split; [exact H|].
  exact (steps_before_window_ignored _ trace_call_return 10 1 H).
Defined.

(** X3: steps that are neither markers nor at depth + 1 are opaque to the
    analysis: dropping all of them from a trace gives the same result. *)
Theorem other_depths_ignored (t : list step) (start_pc depth : Z) :
  parse_struct_logs (encode (List.filter (in_view_of start_pc depth) t)) start_pc depth =
    parse_struct_logs (encode t) start_pc depth.
Proof. unfold parse_struct_logs. by rewrite for_logs_in_view. Qed.

(** X4: on any sequence of step records whose present fields hold
    integers (a string for 'op'), complete or not, the analysis either
    returns or raises KeyError for one of the five fields of a step
    record: popping a frame (line 92) and removing an active key
    (line 97) never fail.  A present field of another type, on which the
    program raises TypeError, is not covered. *)
Theorem only_missing_field_raised
    (struct_logs : list log) (start_pc depth : Z) (e : exn) :
  parse_struct_logs struct_logs start_pc depth = Raise e →
  ∃ k, e = KeyError k ∧ k ∈ field_names.
Proof.
  revert e. unfold parse_struct_logs.
  apply (bind_raises_only missing_field).
  - apply for_logs_raises_only, init_ok.
  - intros [] _. apply Ok_raises_only.
Qed.

Lemma only_missing_field_raised_witness :
  parse_struct_logs
    (encode trace_open_pre ++ [Log (Some 22) (Some 2) (Some "STOP") None (Some 0)]) 10 1
  = Raise (KeyError "gas")
  ∧ ∃ k, KeyError "gas" = KeyError k ∧ k ∈ field_names.
Proof.
  assert (H : parse_struct_logs
                (encode trace_open_pre ++ [Log (Some 22) (Some 2) (Some "STOP") None (Some 0)])
                10 1 = Raise (KeyError "gas")) by reflexivity.
  split; [exact H|].
  exact (only_missing_field_raised _ 10 1 _ H).
Defined.

(** X5: the analysis fails fast on a step record without 'pc': when no
    step at (start_pc + 1, depth) comes before it, the scan reaches it and
    raises KeyError 'pc', whatever it has accumulated and whatever
    follows. *)
Theorem missing_pc_raises
    (pre : list step) (l : log) (post : list log) (start_pc depth : Z) :
  Forall (λ s, is_end start_pc depth s = false) pre →
  log_pc l = None →
  parse_struct_logs (encode pre ++ l :: post) start_pc depth = Raise (KeyError "pc").
Proof.
  intros Hpre Hl. unfold parse_struct_logs. rewrite for_logs_app.
  destruct (for_logs_no_end _ _ _ Hpre init (init_ok depth)) as (st & ->).
  simpl. by rewrite (loop_body_no_pc _ _ _ _ Hl).
Qed.

Lemma missing_pc_raises_witness :
  Forall (λ s, is_end 10 1 s = false) trace_open_pre
  ∧ log_pc (Log None (Some 2) (Some "ADD") (Some 480) (Some 3)) = None
  ∧ parse_struct_logs
      (encode trace_open_pre ++ Log None (Some 2) (Some "ADD") (Some 480) (Some 3)
         :: encode trace_open_post) 10 1
    = Raise (KeyError "pc").
Proof.
  assert (H : Forall (λ s, is_end 10 1 s = false) trace_open_pre).
  { repeat constructor. }
  split; [exact H|]. split; [reflexivity|].
  exact (missing_pc_raises trace_open_pre
           (Log None (Some 2) (Some "ADD") (Some 480) (Some 3))
           (encode trace_open_post) 10 1 H eq_refl).
Defined.

(** X6: 'gasCost' is read only on steps at depth + 1 that are not
    call-family steps: taking the entry away from every other step record
    of a trace (markers, call-family steps, other depths) leaves the
    result as it is. *)
Theorem gasCost_read_only_when_charged (t : list step) (start_pc depth : Z) :
  parse_struct_logs (encode_sparse depth t) start_pc depth =
    parse_struct_logs (encode t) start_pc depth.
Proof. unfold parse_struct_logs. by rewrite for_logs_sparse. Qed.

(** X7: the frames of the result are those of the call-family steps at
    depth + 1 inside the window: a key is in the frame set exactly when
    it is (pc, depth + 1) for such a step. *)
Theorem frames_are_window_calls (t : list step) (start_pc depth : Z) :
  ∃ r, parse_struct_logs (encode t) start_pc depth = Ok r
    ∧ ∀ k, k ∈ keys (res_call_stack r) ↔
           ∃ s, s ∈ child_steps start_pc depth t
                ∧ is_call s = true ∧ k = (s_pc s, depth + 1).
Proof.
  unfold parse_struct_logs.
  destruct (for_logs_total start_pc depth t init (init_ok depth)) as (f & st & H).
  rewrite H. simpl. eexists. split; [done|]. simpl. intros k.
  rewrite (for_logs_keys _ _ _ _ _ _ H (init_ok depth) k). simpl.
  change (to_scan start_pc depth false t) with (child_steps start_pc depth t).
  split; [intros [?%elem_of_nil|?]; done | by right].
Qed.

(** X8: whatever the step records, every frame of a result is filed
    under its own program counter and depth, is at depth + 1, was opened
    by one of the six call-family opcodes, and carries return_pc = pc + 1
    and return_depth = depth + 1 exactly when it carries gas_used. *)
Theorem result_frames_well_formed
    (struct_logs : list log) (start_pc depth : Z) (r : results) :
  parse_struct_logs struct_logs start_pc depth = Ok r →
  Forall (frame_ok depth) (res_call_stack r).
Proof.
  unfold parse_struct_logs. intros H. inv_ok H. simpl.
  eapply for_logs_frames; [exact Ha | constructor].
Qed.

Lemma result_frames_well_formed_witness :
  ∃ r, parse_struct_logs trace_C2 10 1 = Ok r
     ∧ Forall (frame_ok 1) (res_call_stack r).
Proof.
  eexists. split; [reflexivity|].
  exact (result_frames_well_formed trace_C2 10 1 _ eq_refl).
Defined.

(** X9: on a result of the analysis of step records whose present
    fields hold integers (a string for 'op'), [print_results] raises no
    KeyError: every frame that carries 'gas_used' carries 'return_pc' and
    'return_depth' too (lines 132-134).  The differences of lines 125
    and 127 are taken on integers there; a start marker whose 'gas' is
    not an integer, on which line 125 raises TypeError, is not covered. *)
Theorem report_of_analysis_prints
    (struct_logs : list log) (start_pc depth : Z) (r : results) :
  parse_struct_logs struct_logs start_pc depth = Ok r →
  ∃ lines, print_results r = Ok lines.
Proof.
  unfold parse_struct_logs. intros H. inv_ok H.
  unfold print_results. simpl.
  destruct (print_calls_total depth (call_stack s)) as [ls ->].
  - eapply for_logs_frames; [exact Ha | constructor].
  - simpl. eauto.
Qed.

Lemma report_of_analysis_prints_witness :
  ∃ r, parse_struct_logs (encode trace_loop) 10 1 = Ok r
     ∧ ∃ lines, print_results r = Ok lines.
Proof.
  eexists. split; [reflexivity|].
  exact (report_of_analysis_prints (encode trace_loop) 10 1 _ eq_refl).
Defined.

(** X10: when no two call-family steps at depth + 1 inside the window
    share a program counter, the frame of each such step c holds c's
    program counter, remaining gas and opcode; it is finalized by the
    first later step of the window at depth + 1 that is not a call-family
    step and sits at c's program counter + 1, with gas_used = gas at c
    minus gas at that step, and it has no gas_used when no such step
    follows. *)
Theorem frame_of_each_call
    (t : list step) (start_pc depth : Z) (F1 : list step) (c : step) (F2 : list step) :
  NoDup (call_sites (child_steps start_pc depth t)) →
  child_steps start_pc depth t = F1 ++ c :: F2 →
  is_call c = true →
  ∃ r, parse_struct_logs (encode t) start_pc depth = Ok r
    ∧ dict_get (s_pc c, depth + 1) (res_call_stack r) =
        Some (expected_frame depth c F2).
Proof.
  intros Hsites HF Hc. unfold parse_struct_logs.
  destruct (for_logs_total start_pc depth t init (init_ok depth)) as (f & st & H).
  rewrite H. simpl. eexists. split; [done|]. simpl.
  destruct (for_logs_settled _ _ _ _ _ _ H) as [_ HB].
  - split_and!; simpl.
    + apply init_ok.
    + constructor.
    + by intros k ?%elem_of_nil.
    + exact Hsites.
    + intros p _. apply not_elem_of_nil.
  - by eapply HB.
Qed.

Lemma frame_of_each_call_witness :
  NoDup (call_sites (child_steps 10 1 trace_two_calls))
  ∧ child_steps 10 1 trace_two_calls =
      [] ++ Step 21 2 "CALL" 487 0
         :: [ Step 22 2 "POP" 450 2; Step 31 2 "STATICCALL" 440 0 ]
  ∧ ∃ r, parse_struct_logs (encode trace_two_calls) 10 1 = Ok r
       ∧ dict_get (21, 2) (res_call_stack r) =
           Some {| ci_pc := 21; ci_depth := 2; gas_at_call := 487; ci_op := "CALL";
                   gas_used := Some 37; return_pc := Some 22; return_depth := Some 2 |}.
Proof.
  assert (Hsites : NoDup (call_sites (child_steps 10 1 trace_two_calls))).
  { apply NoDup_cons. split; [|apply NoDup_singleton].
    intros Hin. apply list_elem_of_singleton in Hin. discriminate Hin. }
  split; [exact Hsites|]. split; [reflexivity|].
  exact (frame_of_each_call trace_two_calls 10 1 [] (Step 21 2 "CALL" 487 0)
           [ Step 22 2 "POP" 450 2; Step 31 2 "STATICCALL" 440 0 ]
           Hsites eq_refl eq_refl).
Defined.

(** X11: whatever JSON value the document is, a value that the extraction
    returns is data['result']['structLogs'] when that field is present
    and data['structLogs'] otherwise; a KeyError it raises carries the
    not-found message and comes only when neither field is present; the
    only other exception is TypeError. *)
Theorem struct_logs_origin (data : json) :
  (∀ v, get_struct_logs_from_file data = Ok v →
        nested_field data = Ok v
        ∨ (¬ present (nested_field data) ∧ direct_field data = Ok v))
  ∧ (∀ k, get_struct_logs_from_file data = Raise (KeyError k) →
          k = not_found
          ∧ ¬ present (nested_field data) ∧ ¬ present (direct_field data))
  ∧ (∀ e, get_struct_logs_from_file data = Raise e →
          e = KeyError not_found ∨ e = TypeError).
Proof.
  pose proof (get_struct_logs_cases data) as H.
  destruct (get_struct_logs_from_file data) as [v|e]; split_and!.
  - by intros ? [= <-].
  - done.
  - done.
  - done.
  - intros k Hk. injection Hk as ->.
    destruct H as [(Heq & ? & ?)|Heq]; [|discriminate Heq].
    by injection Heq as <-.
  - intros ? [= <-]. destruct H as [[H1 _]|H1]; rewrite H1; auto.
Qed.

Lemma struct_logs_origin_witness :
  get_struct_logs_from_file doc_nested = Ok (JList [JInt 1])
  ∧ (nested_field doc_nested = Ok (JList [JInt 1])
     ∨ (¬ present (nested_field doc_nested)
        ∧ direct_field doc_nested = Ok (JList [JInt 1]))).
Proof.
  split; [reflexivity|].
  destruct (struct_logs_origin doc_nested) as (Hok & _).
  apply Hok. reflexivity.
Defined.

(** * Further properties of [count_transactions.py] *)

(** X12: [get_last_transaction_hash] returns None exactly on the empty
    list; otherwise it returns the hash of an entry of the list whose
    (block number, hash) pair is the greatest: no entry has a higher
    block number, and none of the same block has a greater hash. *)
Theorem last_transaction_is_latest
    {hash : Type} (hash_leb : hash → hash → bool) (details : list (Z * hash)) :
  (∀ x y, hash_leb x y = true ∨ hash_leb y x = true) →
  (∀ x y z, hash_leb x y = true → hash_leb y z = true → hash_leb x z = true) →
  (get_last_transaction_hash hash_leb details = None ↔ details = [])
  ∧ ∀ h, get_last_transaction_hash hash_leb details = Some h →
      ∃ b, (b, h) ∈ details
         ∧ ∀ b' h', (b', h') ∈ details →
             b' < b ∨ (b' = b ∧ hash_leb h' h = true).
Proof.
  intros Htotal Htrans. destruct (decide (details = [])) as [->|Hne].
  { split; [done | by intros h [=]]. }
  destruct (get_last_transaction_hash_max hash_leb Htotal Htrans details Hne)
    as ([b h0] & _ & Hget & Hin & Hmax).
  rewrite Hget. split; [split; [done | by intros ->]|].
  intros h [= <-]. exists b. split; [done|].
  intros b' h' Hin'. exact (Hmax _ Hin').
Qed.

Lemma last_transaction_is_latest_witness :
  (∀ x y, (x <=? y) = true ∨ (y <=? x) = true)
  ∧ (∀ x y z, (x <=? y) = true → (y <=? z) = true → (x <=? z) = true)
  ∧ get_last_transaction_hash Z.leb details_sample = Some 42
  ∧ ∃ b, (b, 42) ∈ details_sample
       ∧ ∀ b' h', (b', h') ∈ details_sample →
           b' < b ∨ (b' = b ∧ (h' <=? 42) = true).
Proof.
  assert (Htotal : ∀ x y, (x <=? y) = true ∨ (y <=? x) = true) by (intros; lia).
  assert (Htrans : ∀ x y z, (x <=? y) = true → (y <=? z) = true → (x <=? z) = true)
    by (intros; lia).
  split; [exact Htotal|]. split; [exact Htrans|]. split; [reflexivity|].
  destruct (last_transaction_is_latest Z.leb details_sample Htotal Htrans) as [_ Hmax].
  exact (Hmax 42 eq_refl).
Defined.

(** X13: the hash that [get_last_transaction_hash] returns does not
    depend on the order of the entries: two lists with the same entries,
    in any arrangement, give the same answer. *)
Theorem last_transaction_order_independent
    {hash : Type} (hash_leb : hash → hash → bool) (l1 l2 : list (Z * hash)) :
  (∀ x y, hash_leb x y = true ∨ hash_leb y x = true) →
  (∀ x y z, hash_leb x y = true → hash_leb y z = true → hash_leb x z = true) →
  (∀ x y, hash_leb x y = true → hash_leb y x = true → x = y) →
  l1 ≡ₚ l2 →
  get_last_transaction_hash hash_leb l1 = get_last_transaction_hash hash_leb l2.
Proof.
  intros Htotal Htrans Hanti. by apply get_last_transaction_hash_perm.
Qed.

Lemma last_transaction_order_independent_witness :
  (∀ x y, (x <=? y) = true ∨ (y <=? x) = true)
  ∧ (∀ x y z, (x <=? y) = true → (y <=? z) = true → (x <=? z) = true)
  ∧ (∀ x y, (x <=? y) = true → (y <=? x) = true → x = y)
  ∧ details_sample ≡ₚ reverse details_sample
  ∧ get_last_transaction_hash Z.leb details_sample =
    get_last_transaction_hash Z.leb (reverse details_sample).
Proof.
  assert (Htotal : ∀ x y, (x <=? y) = true ∨ (y <=? x) = true) by (intros; lia).
  assert (Htrans : ∀ x y z, (x <=? y) = true → (y <=? z) = true → (x <=? z) = true)
    by (intros; lia).
  assert (Hanti : ∀ x y, (x <=? y) = true → (y <=? x) = true → x = y) by (intros; lia).
  assert (Hperm : details_sample ≡ₚ reverse details_sample)
    by (symmetry; apply reverse_Permutation).
  split; [exact Htotal|]. split; [exact Htrans|]. split; [exact Hanti|].
  split; [exact Hperm|].
  exact (last_transaction_order_independent Z.leb _ _ Htotal Htrans Hanti Hperm).
Defined.

(** X14: a step at (start_pc, depth) that comes while the window is open
    resets gas_start and nothing else: the result has the same gas_sum,
    gas_end and frames as for the trace without that step. *)
Theorem restart_keeps_accounting
    (pre : list step) (s : step) (post : list step) (start_pc depth : Z) :
  window_open start_pc depth pre →
  is_start start_pc depth s = true →
  ∃ r1 r2,
    parse_struct_logs (encode (pre ++ s :: post)) start_pc depth = Ok r1
    ∧ parse_struct_logs (encode (pre ++ post)) start_pc depth = Ok r2
    ∧ res_gas_sum r1 = res_gas_sum r2
    ∧ res_gas_end r1 = res_gas_end r2
    ∧ res_call_stack r1 = res_call_stack r2.
Proof.
  intros (st & Hpre & Hm) Hs.
  assert (E1 : for_logs start_pc depth init (encode (pre ++ s :: post)) =
               for_logs start_pc depth (open_window st (s_gas s)) (encode post)).
  { unfold encode. rewrite fmap_app, for_logs_app. fold (encode pre).
    rewrite Hpre. simpl. by rewrite loop_body_step, Hs. }
  assert (E2 : for_logs start_pc depth init (encode (pre ++ post)) =
               for_logs start_pc depth st (encode post)).
  { unfold encode. rewrite fmap_app, for_logs_app. fold (encode pre).
    by rewrite Hpre. }
  unfold parse_struct_logs. rewrite E1, E2.
  assert (Hsame : same_but_gas_start (open_window st (s_gas s)) st).
  { by split_and!. }
  pose proof (for_logs_same_but_gas_start start_pc depth (encode post) _ _ Hsame) as H.
  assert (Hok : state_ok depth st).
  { eapply for_logs_state_ok; [exact Hpre | apply init_ok]. }
  destruct (for_logs_total start_pc depth post st Hok) as (f2 & st2 & H2).
  rewrite H2 in H |- *.
  destruct (for_logs start_pc depth (open_window st (s_gas s)) (encode post))
    as [[f1 st1]|e]; [|done].
  destruct H as (_ & Hcs & _ & Hsum & Hend & _). simpl.
  eexists _, _. split_and!; [done | done | | |]; simpl; congruence.
Qed.

Lemma restart_keeps_accounting_witness :
  window_open 10 1 trace_open_pre
  ∧ is_start 10 1 (Step 10 1 "JUMPDEST" 430 1) = true
  ∧ ∃ r1 r2,
      parse_struct_logs
        (encode (trace_open_pre ++ Step 10 1 "JUMPDEST" 430 1 :: trace_open_post)) 10 1 = Ok r1
      ∧ parse_struct_logs (encode (trace_open_pre ++ trace_open_post)) 10 1 = Ok r2
      ∧ res_gas_sum r1 = res_gas_sum r2
      ∧ res_gas_end r1 = res_gas_end r2
      ∧ res_call_stack r1 = res_call_stack r2.
Proof.
  assert (Hopen : window_open 10 1 trace_open_pre).
  { eexists. split; reflexivity. }
  split; [exact Hopen|]. split; [reflexivity|].
  exact (restart_keeps_accounting trace_open_pre (Step 10 1 "JUMPDEST" 430 1)
           trace_open_post 10 1 Hopen eq_refl).
Defined.

(** X15: the active keys are iterated over while keys are removed from
    them, so that a copy is skipped after every removal: when the active
    list is n copies of one key, a step that is not a call-family step at
    the program counter after it leaves n / 2 copies (rounded down)
    active, not none. *)
Theorem repeated_key_half_removed
    (start_pc depth : Z) (st : state) (p : Z) (n : nat)
    (o : string) (g c : Z) :
  state_ok depth st →
  monitor st = true →
  active_calls st = replicate n (p, depth + 1) →
  in_stack_increasers o = false →
  ∃ st',
    loop_body start_pc depth st
      (Log (Some (p + 1)) (Some (depth + 1)) (Some o) (Some g) (Some c))
    = Ok (Next, st')
    ∧ active_calls st' = replicate (n / 2) (p, depth + 1)
    ∧ gas_sum st' = gas_sum st + c.
Proof.
  intros Hok Hm Hact Ho.
  set (l := Log (Some (p + 1)) (Some (depth + 1)) (Some o) (Some g) (Some c)).
  unfold state_ok in Hok. rewrite Hact in Hok.
  assert (Hhalf : (2 * (n / 2) ≤ n + 0 < 2 * (n / 2) + 2)%nat).
  { pose proof (Nat.div_mod_eq n 2). pose proof (Nat.mod_upper_bound n 2). lia. }
  destruct (return_loop_replicate depth l (depth + 1) g (p, depth + 1) (n / 2)
              eq_refl n 0%nat n (call_stack st) Hok ltac:(lia) ltac:(lia) Hhalf)
    as (cs' & Hloop).
  simpl in Hloop.
  exists (after_opcode st c cs' (replicate (n / 2) (p, depth + 1))).
  split; [|done].
  unfold loop_body, at_marker. simpl.
  assert ((depth + 1 =? depth) = false) as Hd by lia.
  rewrite Hd, Hm, Z.eqb_refl, Ho. simpl.
  rewrite Hact, length_replicate, Hloop. simpl.
  by destruct (p + 1 =? start_pc), (p + 1 =? start_pc + 1).
Qed.

Lemma repeated_key_half_removed_witness :
  ∃ st st',
    for_logs 10 1 init (encode trace_three_calls) = Ok (Next, st)
    ∧ active_calls st = replicate 3 (21, 1 + 1)
    ∧ loop_body 10 1 st (Log (Some (21 + 1)) (Some (1 + 1)) (Some "STOP") (Some 450) (Some 0))
      = Ok (Next, st')
    ∧ active_calls st' = replicate (3 / 2) (21, 1 + 1).
Proof.
  eexists _, _.
  assert (Hreach : for_logs 10 1 init (encode trace_three_calls)
                   = Ok (Next, {| call_stack := [((21, 2), new_call 21 2 470 "CALL")];
                                  active_calls := replicate 3 (21, 1 + 1);
                                  gas_sum := 0; gas_start := 500; gas_end := 0;
                                  monitor := true |})) by reflexivity.
  split; [exact Hreach|]. split; [reflexivity|].
  assert (Hok : state_ok 1 {| call_stack := [((21, 2), new_call 21 2 470 "CALL")];
                              active_calls := replicate 3 (21, 1 + 1);
                              gas_sum := 0; gas_start := 500; gas_end := 0;
                              monitor := true |}).
  { eapply for_logs_state_ok; [exact Hreach | apply init_ok]. }
  destruct (repeated_key_half_removed 10 1 _ 21 3 "STOP" 450 0 Hok eq_refl eq_refl eq_refl)
    as (st' & Hbody & Hact & _).
  split; [reflexivity|].
  reflexivity.
Defined.

(** X16: the gas sum of a window in which no call site is passed twice:
    when no two call-family steps at depth + 1 inside the window share a
    program counter, the analysis completes and gas_sum is the sum of the
    gasCost of the steps at depth + 1 inside the window that are not
    call-family steps, plus gas-at-call minus gas-at-return of every
    frame opened and closed inside the window; the gasCost of a
    call-family step is not added, and a frame that is never closed adds
    nothing. *)
Theorem execution_gas_sum (t : list step) (start_pc depth : Z) :
  NoDup (call_sites (child_steps start_pc depth t)) →
  ∃ r, parse_struct_logs (encode t) start_pc depth = Ok r
    ∧ res_gas_sum r =
        opcode_gas (child_steps start_pc depth t)
        + completed_gas (child_steps start_pc depth t).
Proof.
  intros Hsites. unfold parse_struct_logs.
  destruct (for_logs_total start_pc depth t init (init_ok depth)) as (f & st & H).
  rewrite H. simpl. eexists. split; [done|]. simpl.
  rewrite add_completed_completed.
  rewrite (for_logs_accounting _ _ _ _ _ _ H);
    change (to_scan start_pc depth (monitor init) t)
      with (child_steps start_pc depth t).
  - unfold owed. simpl. lia.
  - split_and!; simpl.
    + apply init_ok.
    + constructor.
    + by intros k ?%elem_of_nil.
    + exact Hsites.
    + intros p _. apply not_elem_of_nil.
Qed.

Lemma execution_gas_sum_witness :
  NoDup (call_sites (child_steps 10 1 trace_call_return))
  ∧ ∃ r, parse_struct_logs (encode trace_call_return) 10 1 = Ok r
       ∧ res_gas_sum r =
           opcode_gas (child_steps 10 1 trace_call_return)
           + completed_gas (child_steps 10 1 trace_call_return).
Proof.
  assert (Hsites : NoDup (call_sites (child_steps 10 1 trace_call_return))).
  { apply NoDup_singleton. }
  split; [exact Hsites|].
  exact (execution_gas_sum trace_call_return 10 1 Hsites).
Defined.
